(** * Image resource layer of the terminal: a shallow embedding

    The embedded code is [src/terminal/Image.h], [src/terminal/Image.cpp]
    and [src/terminal_view/ImageRenderer.{h,cpp}].

    Conventions.
    - A C++ [int] is a [Z] in the range [INT_MIN .. INT_MAX]; signed
      overflow and division by zero are undefined behaviour and show up
      as the outcome [Undefined].
    - A call either returns, throws a C++ exception, ends the program
      through [std::terminate], or has undefined behaviour: the type
      [outcome].
    - An [Image] lives in a node of the pool's [std::list]; its identity
      is the address of that node, an [addr].  A pointer the pool no
      longer holds is dangling, and dereferencing it is [Undefined].
    - Memory is assumed sufficient: an allocation of at most [INT_MAX]
      bytes succeeds. *)

From Stdlib Require Import ZArith List Lia Bool PeanoNat.
From Stdlib Require Import Strings.Byte.
From Stdlib Require Strings.Ascii Strings.String.
Import ListNotations.
Open Scope Z_scope.

(** ** Outcomes of a call *)

Inductive exception : Type :=
| std_length_error       (* std::vector::reserve / resize beyond max_size() *)
| std_bad_function_call. (* calling an empty std::function *)

Inductive outcome (A : Type) : Type :=
| Returns (a : A)
| Throws (e : exception)
| Terminates
| Undefined.

Arguments Returns {A} a.
Arguments Throws {A} e.
Arguments Terminates {A}.
Arguments Undefined {A}.

Definition bind {A B : Type} (c : outcome A) (k : A -> outcome B) : outcome B :=
  match c with
  | Returns a => k a
  | Throws e => Throws e
  | Terminates => Terminates
  | Undefined => Undefined
  end.

(** A body declared [noexcept]: an exception that would leave it calls
    [std::terminate]. *)
Definition noexcept {A : Type} (c : outcome A) : outcome A :=
  match c with
  | Throws _ => Terminates
  | _ => c
  end.

Notation "x <- c ;; k" := (bind c (fun x => k))
  (at level 61, c at next level, right associativity).

(** ** The C++ type [int] *)

Definition INT_MIN : Z := -2147483648.
Definition INT_MAX : Z := 2147483647.

Definition in_int (z : Z) : bool := (INT_MIN <=? z) && (z <=? INT_MAX).

(** The value of an [int] expression whose mathematical result is [z]. *)
Definition int_result (z : Z) : outcome Z :=
  if in_int z then Returns z else Undefined.

Definition int_mul (a b : Z) : outcome Z := int_result (a * b).

(** [a / b] on [int]: truncation towards zero. *)
Definition int_div (a b : Z) : outcome Z :=
  if b =? 0 then Undefined else int_result (Z.quot a b).

(** ** Geometry *)

(** Modelled from the spec: [Size] is declared in [terminal/Size.h], which
    is not among the source files.  [Image::width()] returns
    [size_.width] as an [int], so both members are [int]s. *)
Record Size : Type := mkSize { width : Z; height : Z }.

(** Modelled from the spec: [operator/(Size, Size)] of [terminal/Size.h] is
    missing as well; per the specification it is
    [(a.width / b.width, a.height / b.height)], integer division on each
    axis independently. *)
Definition Size_div (a b : Size) : outcome Size :=
  w <- int_div (width a) (width b) ;;
  h <- int_div (height a) (height b) ;;
  Returns (mkSize w h).

(** Modelled from the spec: [Coordinate] is declared in
    [terminal/Commands.h], not among the source files; a (row, column)
    pair of integers. *)
Record Coordinate : Type := mkCoordinate { row : Z; column : Z }.

(** Modelled from the spec: [RGBColor] (three [uint8_t] channels) comes from
    a header that is not among the source files. *)
Record RGBColor : Type := mkRGB { red : byte; green : byte; blue : byte }.

Inductive ImageResize : Type :=
| NoResize | ResizeToFit | ResizeToFill | StretchToFill.

Inductive ImageAlignment : Type :=
| TopStart | TopCenter | TopEnd
| MiddleStart | MiddleCenter | MiddleEnd
| BottomStart | BottomCenter | BottomEnd.

(** ** Images, handles and the pool *)

Definition addr : Type := nat.

(** The two values a [Deleter] takes in the program: the default argument
    [Deleter{}] of the constructor (an empty [std::function]) and the
    closure [[this](Image const& i) { remove(i); }] of [ImagePool::create]. *)
Inductive Deleter : Type :=
| EmptyDeleter
| PoolRemove.

Record Image : Type := mkImage {
  data_ : list byte;
  size_ : Size;
  deleter_ : Deleter;
  refCount_ : Z
}.

(** [Image::Image(_data, _pixelSize, _deleter)]: no check relates the
    buffer to the size; the count starts at 0. *)
Definition Image_new (d : list byte) (s : Size) (del : Deleter) : Image :=
  mkImage d s del 0.

Definition Image_width (i : Image) : Z := width (size_ i).
Definition Image_height (i : Image) : Z := height (size_ i).
Definition Image_refCount (i : Image) : Z := refCount_ i.

Definition set_refCount (i : Image) (c : Z) : Image :=
  mkImage (data_ i) (size_ i) (deleter_ i) c.

(** [ImageRef]: the member [image_] is a possibly null pointer. *)
Record ImageRef : Type := mkImageRef { image_ : option addr }.

Record ImageFragment : Type := mkImageFragment {
  frag_image_ : ImageRef;
  offset_ : Coordinate;
  frag_size_ : Size
}.

Record RasterizedImage : Type := mkRasterizedImage {
  image : ImageRef;
  cellSpan : Size;
  alignmentPolicy : ImageAlignment;
  resizePolicy : ImageResize
}.

(** [ImagePool]: [images_] is the [std::list<Image>], each node with its
    address, in insertion order. *)
Record ImagePool : Type := mkImagePool {
  images_ : list (addr * Image);
  instances_ : list RasterizedImage
}.

(** The state the operations run in: the pool, and a record of the
    [deleter_] invocations made so far (most recent first).  The record is
    not program state; it is there to count the invocations. *)
Record World : Type := mkWorld {
  pool : ImagePool;
  teardowns : list addr
}.

Definition with_images (w : World) (l : list (addr * Image)) : World :=
  mkWorld (mkImagePool l (instances_ (pool w))) (teardowns w).

(** *** The list of images *)

Fixpoint find_image (a : addr) (l : list (addr * Image)) : option Image :=
  match l with
  | [] => None
  | (b, i) :: l' => if Nat.eqb a b then Some i else find_image a l'
  end.

Fixpoint store_image (a : addr) (i : Image) (l : list (addr * Image))
  : list (addr * Image) :=
  match l with
  | [] => []
  | (b, j) :: l' =>
      if Nat.eqb a b then (b, i) :: l' else (b, j) :: store_image a i l'
  end.

(** The scan-and-erase of [ImagePool::remove]: the first node at the
    address goes; nothing happens when there is none. *)
Fixpoint erase_image (a : addr) (l : list (addr * Image))
  : list (addr * Image) :=
  match l with
  | [] => []
  | (b, j) :: l' => if Nat.eqb a b then l' else (b, j) :: erase_image a l'
  end.

(** The address of a node the allocator hands out: any address no live
    node has.  Addresses of erased nodes may come back. *)
Definition fresh_addr (l : list (addr * Image)) : addr :=
  S (fold_right Nat.max O (map fst l)).

Definition lookup (a : addr) (w : World) : option Image :=
  find_image a (images_ (pool w)).

(** [ImagePool::remove(Image const&)] *)
Definition ImagePool_remove (a : addr) (w : World) : World :=
  with_images w (erase_image a (images_ (pool w))).

(** Modelled from the spec: [ImagePool::imageCount()] is declared in
    [Image.h] and defined in none of the source files; the specification
    has it return the number of currently live Images. *)
Definition imageCount (p : ImagePool) : Z :=
  Z.of_nat (length (images_ p)).

(** *** Reference counting *)

(** The member [refCount_] of the image [i] at [a] becomes [c]. *)
Definition write_refCount (a : addr) (i : Image) (c : Z) (w : World) : World :=
  with_images w (store_image a (set_refCount i c) (images_ (pool w))).

(** [Image::ref()] on the image at [a]. *)
Definition Image_ref (a : addr) (w : World) : outcome World :=
  match lookup a w with
  | None => Undefined
  | Some i =>
      c <- int_result (refCount_ i + 1) ;;
      Returns (write_refCount a i c w)
  end.

(** [deleter_( *this )] *)
Definition invoke_deleter (d : Deleter) (a : addr) (w : World) : outcome World :=
  match d with
  | EmptyDeleter => Throws std_bad_function_call
  | PoolRemove =>
      Returns (ImagePool_remove a (mkWorld (pool w) (a :: teardowns w)))
  end.

(** [Image::unref()]: decrement, then call the deleter if the count is 0.
    Nothing looks at the count before it is decremented. *)
Definition Image_unref (a : addr) (w : World) : outcome World :=
  match lookup a w with
  | None => Undefined
  | Some i =>
      c <- int_result (refCount_ i - 1) ;;
      let w' := write_refCount a i c w in
      if c =? 0 then invoke_deleter (deleter_ i) a w' else Returns w'
  end.

(** [ImageRef::ImageRef(Image const&)] *)
Definition ImageRef_new (a : addr) (w : World) : outcome (ImageRef * World) :=
  w' <- Image_ref a w ;;
  Returns (mkImageRef (Some a), w').

(** [ImageRef::~ImageRef()]; a destructor is [noexcept]. *)
Definition ImageRef_destroy (r : ImageRef) (w : World) : outcome World :=
  noexcept
    match image_ r with
    | Some a => Image_unref a w
    | None => Returns w
    end.

(** [ImageRef::ImageRef(ImageRef const& v)]: [image_->ref()] without a
    null test. *)
Definition ImageRef_copy (v : ImageRef) (w : World) : outcome (ImageRef * World) :=
  match image_ v with
  | Some a => w' <- Image_ref a w ;; Returns (mkImageRef (image_ v), w')
  | None => Undefined
  end.

(** [ImageRef::ImageRef(ImageRef&& v)]: the new handle, and [v] afterwards. *)
Definition ImageRef_move (v : ImageRef) (w : World)
  : outcome (ImageRef * ImageRef * World) :=
  Returns (mkImageRef (image_ v), mkImageRef None, w).

(** The right-hand side of an assignment: the object assigned to itself,
    or another object.  This is the test [&v != this]. *)
Inductive operand : Type :=
| Self
| Other (v : ImageRef).

(** [ImageRef::operator=(ImageRef const& v)]: the handle afterwards. *)
Definition ImageRef_assign (this : ImageRef) (v : operand) (w : World)
  : outcome (ImageRef * World) :=
  match v with
  | Self => Returns (this, w)
  | Other v =>
      match image_ this with
      | None => Undefined
      | Some a =>
          w1 <- Image_unref a w ;;
          match image_ v with
          | None => Undefined
          | Some b => w2 <- Image_ref b w1 ;; Returns (mkImageRef (image_ v), w2)
          end
      end
  end.

(** [ImageRef::operator=(ImageRef&& v)]: the handle and [v] afterwards. *)
Definition ImageRef_move_assign (this : ImageRef) (v : operand) (w : World)
  : outcome (ImageRef * operand * World) :=
  match v with
  | Self => Returns (this, Self, w)
  | Other v => Returns (mkImageRef (image_ v), Other (mkImageRef None), w)
  end.

(** [ImageRef::get()] *)
Definition ImageRef_get (r : ImageRef) (w : World) : outcome Image :=
  match image_ r with
  | None => Undefined
  | Some a =>
      match lookup a w with
      | None => Undefined
      | Some i => Returns i
      end
  end.

(** [operator==(ImageRef const&, ImageRef const&)]: address equality. *)
Definition ImageRef_eqb (x y : ImageRef) : outcome bool :=
  match image_ x, image_ y with
  | Some a, Some b => Returns (Nat.eqb a b)
  | _, _ => Undefined
  end.

(** *** Creating images *)

(** [ImagePool::create(Image::Data, Size)]: a node is appended, the closure
    over [remove] is its deleter, and the handle returned is built from
    [images_.back()]. *)
Definition ImagePool_create (d : list byte) (s : Size) (w : World)
  : outcome (ImageRef * World) :=
  let a := fresh_addr (images_ (pool w)) in
  ImageRef_new a (with_images w (images_ (pool w) ++ [(a, Image_new d s PoolRemove)])).

(** [n], an [int], converted to [size_t] and passed to [reserve] or
    [resize] of a [std::vector<uint8_t>]: a negative [n] becomes a size
    above [max_size()]. *)
Definition vector_size_arg (n : Z) : outcome nat :=
  if n <? 0 then Throws std_length_error else Returns (Z.to_nat n).

Fixpoint replace_nth (i : nat) (b : byte) (d : list byte) : list byte :=
  match d, i with
  | [], _ => []
  | _ :: d', O => b :: d'
  | x :: d', S i' => x :: replace_nth i' b d'
  end.

(** [d[i] = b] on a vector: writing past the end is undefined. *)
Definition vector_set (d : list byte) (i : nat) (b : byte) : outcome (list byte) :=
  if Nat.ltb i (length d) then Returns (replace_nth i b d) else Undefined.

(** The range-for loop of the RGB overload; [i] is the running index. *)
Fixpoint write_colors (cs : list RGBColor) (i : nat) (d : list byte)
  : outcome (list byte) :=
  match cs with
  | [] => Returns d
  | c :: cs' =>
      d1 <- vector_set d i (red c) ;;
      d2 <- vector_set d1 (i + 1) (green c) ;;
      d3 <- vector_set d2 (i + 2) (blue c) ;;
      d4 <- vector_set d3 (i + 3) xff ;;
      write_colors cs' (i + 4) d4
  end.

(** [ImagePool::create(std::vector<RGBColor> const&, Size)] *)
Definition ImagePool_create_rgb (cs : list RGBColor) (s : Size) (w : World)
  : outcome (ImageRef * World) :=
  n <- int_mul (width s) (height s) ;;
  n4 <- int_mul n 4 ;;
  len <- vector_size_arg n4 ;;
  d <- write_colors cs O (repeat x00 len) ;;
  ImagePool_create d s w.

(** ** Fragments *)

(** [ImageFragment::ImageFragment(Image const&, Coordinate, Size)]: the
    member [image_] is an [ImageRef] built from the image, which counts. *)
Definition ImageFragment_new (a : addr) (off : Coordinate) (s : Size) (w : World)
  : outcome (ImageFragment * World) :=
  p <- ImageRef_new a w ;;
  Returns (mkImageFragment (fst p) off s, snd p).

(** [std::copy(&v[start], &v[start] + n, std::back_inserter(out))]:
    [&v[start]] needs an element at [start], and the range has to end
    inside the buffer. *)
Definition copy_range (v : list byte) (start n : Z) : outcome (list byte) :=
  if (0 <=? start) && (start <? Z.of_nat (length v))
     && (0 <=? n) && (start + n <=? Z.of_nat (length v))
  then Returns (firstn (Z.to_nat n) (skipn (Z.to_nat start) v))
  else Undefined.

(** The loop [for (int y = 0; y < size_.height; ++y)] of
    [ImageFragment::data()], with [n] iterations left from row [y]. *)
Fixpoint copy_rows (full : list byte) (s : Size) (y : Z) (n : nat)
  (fragData : list byte) : outcome (list byte) :=
  match n with
  | O => Returns fragData
  | S n' =>
      yw <- int_mul y (width s) ;;
      start <- int_mul yw 4 ;;
      len <- int_mul (width s) 4 ;;
      r <- copy_range full start len ;;
      copy_rows full s (y + 1) n' (fragData ++ r)
  end.

(** [ImageFragment::data()].  The member [offset_] is not read. *)
Definition ImageFragment_data (f : ImageFragment) (w : World)
  : outcome (list byte) :=
  i <- ImageRef_get (frag_image_ f) w ;;
  n <- int_mul (width (frag_size_ f)) (height (frag_size_ f)) ;;
  n4 <- int_mul n 4 ;;
  _ <- vector_size_arg n4 ;;
  copy_rows (data_ i) (frag_size_ f) 0 (Z.to_nat (height (frag_size_ f))) [].

(** ** Rasterized images *)

(** [RasterizedImage::cellSize()], a [noexcept] member, over the division
    [div] of one [Size] by another. *)
Definition RasterizedImage_cellSize_over (div : Size -> Size -> outcome Size)
  (r : RasterizedImage) (w : World) : outcome Size :=
  noexcept (i <- ImageRef_get (image r) w ;; div (size_ i) (cellSpan r)).

Definition RasterizedImage_cellSize : RasterizedImage -> World -> outcome Size :=
  RasterizedImage_cellSize_over Size_div.

(** [RasterizedImage::fragment(Coordinate)]: no test on [_pos]. *)
Definition RasterizedImage_fragment (r : RasterizedImage) (pos : Coordinate)
  (w : World) : outcome (ImageFragment * World) :=
  i <- ImageRef_get (image r) w ;;
  cellUnitWidth <- int_div (Image_width i) (width (cellSpan r)) ;;
  prow <- int_mul (row pos) (Image_width i) ;;
  pcol <- int_mul (column pos) cellUnitWidth ;;
  match image_ (image r) with
  | Some a => ImageFragment_new a (mkCoordinate prow pcol) (cellSpan r) w
  | None => Undefined
  end.

(** ** The renderer *)

Record Slice : Type := mkSlice { slice_offset : Size }.

(** Modelled from the spec: [crispy::atlas::MetadataTextureAtlas] of
    [crispy/Atlas.h] is not among the source files.  The specification has
    it as a cache from (image identity, slice descriptor) to a cached
    texture region, and [clear()] as discarding every entry while the pool
    stays as it is.  [ImageRenderer.h] instantiates it with [ImageRef] as
    the key and [Slice] as the metadata; a texture region is a number
    here. *)
Record TextureAtlas : Type := mkTextureAtlas {
  entries : list (ImageRef * Slice * nat)
}.

Definition TextureAtlas_clear (t : TextureAtlas) : TextureAtlas :=
  mkTextureAtlas [].

(** [ImageRenderer]; the member [commandListener_] refers to an object
    outside the renderer and is left out. *)
Record ImageRenderer : Type := mkImageRenderer {
  imagePool_ : ImagePool;
  cellSize_ : Size;
  atlas_ : TextureAtlas
}.

Definition ImageRenderer_new (cellSize : Size) : ImageRenderer :=
  mkImageRenderer (mkImagePool [] []) cellSize (mkTextureAtlas []).

Definition ImageRenderer_setCellSize (s : Size) (r : ImageRenderer) : ImageRenderer :=
  mkImageRenderer (imagePool_ r) s (atlas_ r).

(** [ImageRenderer::renderImage]: prints a line and does nothing else. *)
Definition ImageRenderer_renderImage (i : Image) (off : Coordinate) (ext : Size)
  (r : ImageRenderer) : ImageRenderer := r.

(** [ImageRenderer::clearCache()] *)
Definition ImageRenderer_clearCache (r : ImageRenderer) : ImageRenderer :=
  mkImageRenderer (imagePool_ r) (cellSize_ r) (TextureAtlas_clear (atlas_ r)).

Inductive renderer_call : Type :=
| CallSetCellSize (s : Size)
| CallRenderImage (i : Image) (off : Coordinate) (ext : Size)
| CallClearCache.

Definition renderer_step (r : ImageRenderer) (c : renderer_call) : ImageRenderer :=
  match c with
  | CallSetCellSize s => ImageRenderer_setCellSize s r
  | CallRenderImage i off ext => ImageRenderer_renderImage i off ext r
  | CallClearCache => ImageRenderer_clearCache r
  end.

(** ** Sequences of handle operations *)

(** What can happen to the handles of one image: one of them is copied
    (copy constructor) or one of them is destroyed. *)
Inductive handle_op : Type :=
| CopyHandle
| DestroyHandle.

Definition handle_step (h : ImageRef) (w : World) (o : handle_op) : outcome World :=
  match o with
  | CopyHandle => p <- ImageRef_copy h w ;; Returns (snd p)
  | DestroyHandle => ImageRef_destroy h w
  end.

Fixpoint run_handle_ops (h : ImageRef) (ops : list handle_op) (w : World)
  : outcome World :=
  match ops with
  | [] => Returns w
  | o :: ops' => w' <- handle_step h w o ;; run_handle_ops h ops' w'
  end.

Definition copies (ops : list handle_op) : Z :=
  Z.of_nat (length (filter (fun o => match o with CopyHandle => true | _ => false end) ops)).

Definition destructions (ops : list handle_op) : Z :=
  Z.of_nat (length (filter (fun o => match o with DestroyHandle => true | _ => false end) ops)).

(** A sequence is one a program can perform when, with [c] handles alive at
    the start, every operation finds a handle to act on, and the count
    stays an [int]. *)
Fixpoint handles_alive (c : Z) (ops : list handle_op) : bool :=
  match ops with
  | [] => true
  | CopyHandle :: ops' => (1 <=? c) && (c <? INT_MAX) && handles_alive (c + 1) ops'
  | DestroyHandle :: ops' => (1 <=? c) && handles_alive (c - 1) ops'
  end.

Definition empty_world : World := mkWorld (mkImagePool [] []) [].

(** A pool holding one image at address [a]. *)
Definition one_image_world (a : addr) (i : Image) : World :=
  with_images empty_world [(a, i)].

Definition refCount_at (a : addr) (w : World) : option Z :=
  option_map refCount_ (lookup a w).

(** The RGBA quad the specification expects for one colour: the three
    channels followed by a fully opaque alpha. *)
Definition rgba_quad (c : RGBColor) : list byte := [red c; green c; blue c; xff].

(** A one pixel wide, two pixels high image: a red pixel above a blue one. *)
Definition red_over_blue : Image :=
  mkImage [xff; x00; x00; xff; x00; x00; xff; xff] (mkSize 1 2) PoolRemove 1.

(** The fragment of one pixel at row 1 of an image at address [a]. *)
Definition second_row_fragment (a : addr) : ImageFragment :=
  mkImageFragment (mkImageRef (Some a)) (mkCoordinate 1 0) (mkSize 1 1).

(** [red_over_blue] rasterized onto a span of [cs] cells. *)
Definition rasterized (a : addr) (cs : Size) : RasterizedImage :=
  mkRasterizedImage (mkImageRef (Some a)) cs TopStart NoResize.

(** Two images, at addresses 1 and 2, with two handles on the first and
    one on the second. *)
Definition two_image_world : World :=
  with_images empty_world
    [(1%nat, mkImage [] (mkSize 0 0) PoolRemove 2);
     (2%nat, mkImage [] (mkSize 0 0) PoolRemove 1)].

(** ** The rest of the handle and fragment interface *)

(** [operator!=(ImageRef const&, ImageRef const&)] *)
Definition ImageRef_neqb (x y : ImageRef) : outcome bool :=
  e <- ImageRef_eqb x y ;; Returns (negb e).

(** [ImageFragment::image()] *)
Definition ImageFragment_image (f : ImageFragment) (w : World) : outcome Image :=
  ImageRef_get (frag_image_ f) w.

(** The defaulted [ImageFragment(ImageFragment const&)]: member-wise, the
    handle through the copy constructor of [ImageRef]. *)
Definition ImageFragment_copy (f : ImageFragment) (w : World)
  : outcome (ImageFragment * World) :=
  p <- ImageRef_copy (frag_image_ f) w ;;
  Returns (mkImageFragment (fst p) (offset_ f) (frag_size_ f), snd p).

(** The implicit destructor of [ImageFragment]: it destroys the handle. *)
Definition ImageFragment_destroy (f : ImageFragment) (w : World) : outcome World :=
  ImageRef_destroy (frag_image_ f) w.

(** ** Named images *)

(** [NamedImage]: [createdAt_] is a [uint64_t]. *)
Record NamedImage : Type := mkNamedImage {
  name_ : String.string;
  createdAt_ : N;
  named_image_ : ImageRef
}.

(** [operator<] of [std::string]: lexicographic on the characters as
    unsigned values, a proper prefix being smaller. *)
Definition string_lt (x y : String.string) : bool := String.ltb x y.

(** [operator<(NamedImage const&, NamedImage const&)] *)
Definition NamedImage_lt (x y : NamedImage) : bool :=
  if (createdAt_ x <? createdAt_ y)%N then true
  else if (createdAt_ x =? createdAt_ y)%N then string_lt (name_ x) (name_ y)
  else false.

(** ** Calls on a pool *)

(** No two nodes of the list share an address. *)
Fixpoint distinct_addrs (l : list (addr * Image)) : bool :=
  match l with
  | [] => true
  | (a, _) :: l' =>
      match find_image a l' with
      | None => distinct_addrs l'
      | Some _ => false
      end
  end.

(** An image as the pool makes and keeps them: counted at least once, and
    with the closure over [remove] as its deleter. *)
Definition pool_image (e : addr * Image) : bool :=
  (1 <=? refCount_ (snd e))
  && match deleter_ (snd e) with PoolRemove => true | EmptyDeleter => false end.

Definition pool_consistent (w : World) : bool :=
  distinct_addrs (images_ (pool w)) && forallb pool_image (images_ (pool w)).

(** What a client can call on a pool and on handles of its images.  The
    handles passed are arbitrary: they may be stale. *)
Inductive pool_call : Type :=
| DoCreate (d : list byte) (s : Size)
| DoCreateRGB (cs : list RGBColor) (s : Size)
| DoRemove (a : addr)
| DoCopy (h : ImageRef)
| DoDestroy (h : ImageRef)
| DoAssign (h : ImageRef) (v : operand)
| DoMoveAssign (h : ImageRef) (v : operand)
| DoFragment (r : RasterizedImage) (pos : Coordinate).

Definition pool_step (w : World) (c : pool_call) : outcome World :=
  match c with
  | DoCreate d s => p <- ImagePool_create d s w ;; Returns (snd p)
  | DoCreateRGB cs s => p <- ImagePool_create_rgb cs s w ;; Returns (snd p)
  | DoRemove a => Returns (ImagePool_remove a w)
  | DoCopy h => p <- ImageRef_copy h w ;; Returns (snd p)
  | DoDestroy h => ImageRef_destroy h w
  | DoAssign h v => p <- ImageRef_assign h v w ;; Returns (snd p)
  | DoMoveAssign h v => p <- ImageRef_move_assign h v w ;; Returns (snd p)
  | DoFragment r pos => p <- RasterizedImage_fragment r pos w ;; Returns (snd p)
  end.

Fixpoint pool_run (w : World) (cs : list pool_call) : outcome World :=
  match cs with
  | [] => Returns w
  | c :: cs' => w' <- pool_step w c ;; pool_run w' cs'
  end.

(** The cell size a renderer built with [cs] has after a list of calls. *)
Fixpoint last_cell_size (cs : Size) (calls : list renderer_call) : Size :=
  match calls with
  | [] => cs
  | CallSetCellSize s :: calls' => last_cell_size s calls'
  | _ :: calls' => last_cell_size cs calls'
  end.

(** An array of [32768 * 16384] black pixels. *)
Definition half_gigapixel : list RGBColor :=
  repeat (mkRGB x00 x00 x00) (Z.to_nat 536870912).

(** * Properties *)

(** ** Outcomes and [int] *)

Lemma in_int_bounds (z : Z) : in_int z = true <-> INT_MIN <= z <= INT_MAX.
Proof.
  unfold in_int. rewrite andb_true_iff, !Z.leb_le. tauto.
Qed.

Lemma int_result_ok (z : Z) : INT_MIN <= z <= INT_MAX -> int_result z = Returns z.
Proof.
  intros H. unfold int_result. apply in_int_bounds in H. now rewrite H.
Qed.

Lemma int_mul_ok (a b : Z) : INT_MIN <= a * b <= INT_MAX -> int_mul a b = Returns (a * b).
Proof. apply int_result_ok. Qed.

Lemma int_div_ok (a b : Z) :
  b <> 0 -> INT_MIN <= Z.quot a b <= INT_MAX -> int_div a b = Returns (Z.quot a b).
Proof.
  intros Hb H. unfold int_div.
  destruct (Z.eqb_spec b 0) as [E | _]; [contradiction | now apply int_result_ok].
Qed.

Lemma int_div_zero (a : Z) : int_div a 0 = Undefined.
Proof. reflexivity. Qed.

Lemma int_div_never_throws (a b : Z) (e : exception) : int_div a b <> Throws e.
Proof.
  unfold int_div, int_result.
  destruct (b =? 0); [discriminate |]. destruct (in_int _); discriminate.
Qed.

Lemma noexcept_never_throws {A : Type} (c : outcome A) (e : exception) :
  noexcept c <> Throws e.
Proof. destruct c; discriminate. Qed.

Lemma noexcept_returns {A : Type} (c : outcome A) (x : A) :
  noexcept c = Returns x <-> c = Returns x.
Proof. destruct c; simpl; split; congruence. Qed.

(** Dividing an [int] by a positive [int] stays in range. *)
Lemma quot_pos_in_int (a b : Z) :
  INT_MIN <= a <= INT_MAX -> 0 < b -> INT_MIN <= Z.quot a b <= INT_MAX.
Proof.
  intros Ha Hb.
  destruct (Z.le_gt_cases 0 a) as [Hp | Hn].
  - pose proof (Z.quot_pos a b Hp Hb).
    assert (Z.quot a b <= a) by (apply Z.quot_le_upper_bound; nia).
    unfold INT_MIN in *. lia.
  - assert (E : Z.quot a b = - Z.quot (- a) b).
    { rewrite Z.quot_opp_l by lia. lia. }
    assert (0 <= Z.quot (- a) b) by (apply Z.quot_pos; lia).
    assert (Z.quot (- a) b <= - a) by (apply Z.quot_le_upper_bound; nia).
    unfold INT_MAX in *. lia.
Qed.

(** ** The list of images *)

Section ImageList.

Variable a : addr.

Lemma find_store_same (j : Image) (l : list (addr * Image)) :
  find_image a l <> None -> find_image a (store_image a j l) = Some j.
Proof.
  induction l as [| [b i] l IH]; simpl; [congruence |].
  destruct (Nat.eqb a b) eqn:E; simpl; rewrite E; auto.
Qed.

Lemma find_store_other (b : addr) (j : Image) (l : list (addr * Image)) :
  a <> b -> find_image a (store_image b j l) = find_image a l.
Proof.
  intros Hab. induction l as [| [c i] l IH]; simpl; [reflexivity |].
  destruct (Nat.eqb b c) eqn:E; simpl.
  - apply Nat.eqb_eq in E. subst c.
    apply Nat.eqb_neq in Hab. now rewrite Hab.
  - now rewrite IH.
Qed.

Lemma find_erase_other (b : addr) (l : list (addr * Image)) :
  a <> b -> find_image a (erase_image b l) = find_image a l.
Proof.
  intros Hab. induction l as [| [c i] l IH]; simpl; [reflexivity |].
  destruct (Nat.eqb b c) eqn:E; simpl.
  - apply Nat.eqb_eq in E. subst c.
    apply Nat.eqb_neq in Hab. now rewrite Hab.
  - now rewrite IH.
Qed.

Lemma length_store (j : Image) (l : list (addr * Image)) :
  length (store_image a j l) = length l.
Proof.
  induction l as [| [b i] l IH]; simpl; [reflexivity |].
  destruct (Nat.eqb a b); simpl; congruence.
Qed.

Lemma length_erase_present (l : list (addr * Image)) :
  find_image a l <> None -> S (length (erase_image a l)) = length l.
Proof.
  induction l as [| [b i] l IH]; simpl; [congruence |].
  destruct (Nat.eqb a b); simpl; auto.
Qed.

(** [ImagePool::remove] of an image the pool does not hold does nothing. *)
Lemma erase_absent (l : list (addr * Image)) :
  find_image a l = None -> erase_image a l = l.
Proof.
  induction l as [| [b i] l IH]; simpl; [reflexivity |].
  destruct (Nat.eqb a b); [discriminate | intros H; now rewrite IH].
Qed.

Lemma find_app_absent (i : Image) (l : list (addr * Image)) :
  find_image a l = None -> find_image a (l ++ [(a, i)]) = Some i.
Proof.
  induction l as [| [b j] l IH]; simpl.
  - now rewrite Nat.eqb_refl.
  - destruct (Nat.eqb a b); [discriminate | exact IH].
Qed.

Lemma store_app_absent (i j : Image) (l : list (addr * Image)) :
  find_image a l = None -> store_image a j (l ++ [(a, i)]) = l ++ [(a, j)].
Proof.
  induction l as [| [b k] l IH]; simpl.
  - now rewrite Nat.eqb_refl.
  - destruct (Nat.eqb a b); [discriminate | intros H; now rewrite IH].
Qed.

Lemma find_bounded (i : Image) (l : list (addr * Image)) :
  find_image a l = Some i -> (a <= fold_right Nat.max O (map fst l))%nat.
Proof.
  induction l as [| [b j] l IH]; simpl; [discriminate |].
  destruct (Nat.eqb a b) eqn:E.
  - apply Nat.eqb_eq in E. subst b. intros _. apply Nat.le_max_l.
  - intros H. specialize (IH H). lia.
Qed.

End ImageList.

Lemma find_fresh (l : list (addr * Image)) : find_image (fresh_addr l) l = None.
Proof.
  destruct (find_image (fresh_addr l) l) as [i |] eqn:E; [| reflexivity].
  apply find_bounded in E. unfold fresh_addr in E. lia.
Qed.

(** ** Reference counting *)

Lemma set_refCount_twice (i : Image) (c d : Z) :
  set_refCount (set_refCount i c) d = set_refCount i d.
Proof. reflexivity. Qed.

Lemma set_refCount_same (i : Image) : set_refCount i (refCount_ i) = i.
Proof. now destruct i. Qed.

Section OneImage.

Variables (a : addr) (w : World) (i : Image).
Hypothesis Hlive : lookup a w = Some i.

Lemma lookup_write (c : Z) :
  lookup a (write_refCount a i c w) = Some (set_refCount i c).
Proof.
  unfold lookup, write_refCount; simpl.
  apply find_store_same. unfold lookup in Hlive. congruence.
Qed.

Lemma lookup_write_other (b : addr) (c : Z) :
  b <> a -> lookup b (write_refCount a i c w) = lookup b w.
Proof. intros H. unfold lookup, write_refCount; simpl. now apply find_store_other. Qed.

Lemma imageCount_write (c : Z) :
  imageCount (pool (write_refCount a i c w)) = imageCount (pool w).
Proof. unfold imageCount, write_refCount; simpl. now rewrite length_store. Qed.

Lemma Image_ref_returns :
  INT_MIN <= refCount_ i + 1 <= INT_MAX ->
  Image_ref a w = Returns (write_refCount a i (refCount_ i + 1) w).
Proof.
  intros H. unfold Image_ref. rewrite Hlive, int_result_ok by exact H. reflexivity.
Qed.

(** A decrement that does not land on 0 only writes the count. *)
Lemma Image_unref_returns :
  INT_MIN <= refCount_ i - 1 <= INT_MAX -> refCount_ i <> 1 ->
  Image_unref a w = Returns (write_refCount a i (refCount_ i - 1) w).
Proof.
  intros H Hne. unfold Image_unref. rewrite Hlive, int_result_ok by exact H.
  simpl. destruct (Z.eqb_spec (refCount_ i - 1) 0) as [E | _]; [lia | reflexivity].
Qed.

(** The decrement from 1 runs the deleter. *)
Lemma Image_unref_last :
  refCount_ i = 1 ->
  Image_unref a w = invoke_deleter (deleter_ i) a (write_refCount a i 0 w).
Proof.
  intros H. unfold Image_unref. rewrite Hlive, H. reflexivity.
Qed.

Lemma imageCount_remove (c : Z) (log : list addr) :
  imageCount (pool (ImagePool_remove a (mkWorld (pool (write_refCount a i c w)) log)))
  = imageCount (pool w) - 1.
Proof.
  unfold imageCount, ImagePool_remove, write_refCount; simpl.
  assert (H : find_image a (store_image a (set_refCount i c) (images_ (pool w))) <> None).
  { rewrite find_store_same; [discriminate |]. unfold lookup in Hlive. congruence. }
  apply length_erase_present in H. rewrite length_store in H. lia.
Qed.

End OneImage.

Lemma copies_cons (o : handle_op) (ops : list handle_op) :
  copies (o :: ops) = (match o with CopyHandle => 1 | DestroyHandle => 0 end) + copies ops.
Proof. unfold copies. destruct o; simpl length; lia. Qed.

Lemma destructions_cons (o : handle_op) (ops : list handle_op) :
  destructions (o :: ops) = (match o with CopyHandle => 0 | DestroyHandle => 1 end) + destructions ops.
Proof. unfold destructions. destruct o; simpl length; lia. Qed.

Lemma handles_alive_none (ops : list handle_op) :
  handles_alive 0 ops = true -> ops = [].
Proof. destruct ops as [| [|] ops]; simpl; [reflexivity | discriminate | discriminate]. Qed.

(** The count of a pool image over a sequence of copies and destructions
    of its handles, from any state in which the image is alive. *)
Lemma run_handle_ops_count (a : addr) (ops : list handle_op) :
  forall (w : World) (i : Image),
    lookup a w = Some i -> deleter_ i = PoolRemove ->
    1 <= refCount_ i <= INT_MAX ->
    handles_alive (refCount_ i) ops = true ->
    exists w',
      run_handle_ops (mkImageRef (Some a)) ops w = Returns w' /\
      0 <= refCount_ i + copies ops - destructions ops /\
      (1 <= refCount_ i + copies ops - destructions ops ->
         lookup a w' = Some (set_refCount i (refCount_ i + copies ops - destructions ops)) /\
         imageCount (pool w') = imageCount (pool w) /\
         teardowns w' = teardowns w) /\
      (refCount_ i + copies ops - destructions ops = 0 ->
         imageCount (pool w') = imageCount (pool w) - 1 /\
         teardowns w' = a :: teardowns w).
Proof.
  induction ops as [| o ops IH]; intros w i Hlive Hdel Hpos Halive.
  - exists w. change (copies []) with 0. change (destructions []) with 0.
    rewrite Z.add_0_r, Z.sub_0_r, set_refCount_same.
    repeat split; auto; lia.
  - rewrite copies_cons, destructions_cons. destruct o; simpl in Halive.
    + (* copy *)
      apply andb_true_iff in Halive as [Hc Halive].
      apply andb_true_iff in Hc as [_ Hmax]. apply Z.ltb_lt in Hmax.
      assert (Hr : INT_MIN <= refCount_ i + 1 <= INT_MAX)
        by (unfold INT_MIN, INT_MAX in *; lia).
      set (i1 := set_refCount i (refCount_ i + 1)).
      set (w1 := write_refCount a i (refCount_ i + 1) w).
      assert (Hpos1 : 1 <= refCount_ i1 <= INT_MAX) by (unfold i1; simpl; lia).
      destruct (IH w1 i1 (lookup_write a w i Hlive _) Hdel Hpos1 Halive)
        as (w' & Hrun & Hnn & Hkeep & Hgone).
      change (refCount_ i1) with (refCount_ i + 1) in Hnn, Hkeep, Hgone.
      unfold i1 in Hkeep. rewrite set_refCount_twice in Hkeep.
      unfold w1 in Hkeep, Hgone. rewrite (imageCount_write a w i) in Hkeep, Hgone.
      change (teardowns (write_refCount a i (refCount_ i + 1) w)) with (teardowns w)
        in Hkeep, Hgone.
      exists w'. split.
      { simpl. unfold ImageRef_copy; simpl.
        rewrite (Image_ref_returns a w i Hlive Hr). simpl. exact Hrun. }
      replace (refCount_ i + (1 + copies ops) - (0 + destructions ops))
        with (refCount_ i + 1 + copies ops - destructions ops) by lia.
      auto.
    + (* destruction *)
      apply andb_true_iff in Halive as [_ Halive].
      destruct (Z.eq_dec (refCount_ i) 1) as [E1 | Hne].
      * rewrite E1 in Halive. simpl in Halive. apply handles_alive_none in Halive.
        subst ops. change (copies []) with 0. change (destructions []) with 0.
        exists (ImagePool_remove a
                  (mkWorld (pool (write_refCount a i 0 w)) (a :: teardowns w))).
        split.
        { simpl. unfold ImageRef_destroy; simpl.
          rewrite (Image_unref_last a w i Hlive E1), Hdel. reflexivity. }
        split; [lia |]. split; [intros; lia |]. intros _.
        split; [apply (imageCount_remove a w i Hlive) | reflexivity].
      * assert (Hr : INT_MIN <= refCount_ i - 1 <= INT_MAX)
          by (unfold INT_MIN, INT_MAX in *; lia).
        set (i1 := set_refCount i (refCount_ i - 1)).
        set (w1 := write_refCount a i (refCount_ i - 1) w).
        assert (Hpos1 : 1 <= refCount_ i1 <= INT_MAX) by (unfold i1; simpl; lia).
        destruct (IH w1 i1 (lookup_write a w i Hlive _) Hdel Hpos1 Halive)
          as (w' & Hrun & Hnn & Hkeep & Hgone).
        change (refCount_ i1) with (refCount_ i - 1) in Hnn, Hkeep, Hgone.
        unfold i1 in Hkeep. rewrite set_refCount_twice in Hkeep.
        unfold w1 in Hkeep, Hgone. rewrite (imageCount_write a w i) in Hkeep, Hgone.
        change (teardowns (write_refCount a i (refCount_ i - 1) w)) with (teardowns w)
          in Hkeep, Hgone.
        exists w'. split.
        { simpl. unfold ImageRef_destroy; simpl.
          rewrite (Image_unref_returns a w i Hlive Hr Hne). simpl. exact Hrun. }
        replace (refCount_ i + (0 + copies ops) - (1 + destructions ops))
          with (refCount_ i - 1 + copies ops - destructions ops) by lia.
        auto.
Qed.

(** ** Creating an image *)

Lemma ImagePool_create_returns (d : list byte) (s : Size) (w : World) :
  ImagePool_create d s w =
  Returns (mkImageRef (Some (fresh_addr (images_ (pool w)))),
           with_images w (images_ (pool w)
                            ++ [(fresh_addr (images_ (pool w)), mkImage d s PoolRemove 1)])).
Proof.
  unfold ImagePool_create, ImageRef_new, Image_ref, lookup; simpl.
  rewrite find_app_absent by apply find_fresh. simpl.
  unfold write_refCount; simpl.
  rewrite store_app_absent by apply find_fresh. reflexivity.
Qed.

Lemma lookup_created (d : list byte) (s : Size) (w : World) :
  lookup (fresh_addr (images_ (pool w)))
         (with_images w (images_ (pool w)
                           ++ [(fresh_addr (images_ (pool w)), mkImage d s PoolRemove 1)]))
  = Some (mkImage d s PoolRemove 1).
Proof. unfold lookup; simpl. apply find_app_absent, find_fresh. Qed.

Lemma imageCount_created (w : World) (e : addr * Image) :
  imageCount (pool (with_images w (images_ (pool w) ++ [e]))) = imageCount (pool w) + 1.
Proof. unfold imageCount; simpl. rewrite length_app; simpl. lia. Qed.

(** C2: an image created by the pool starts with count 1; after a sequence
    of N copy constructions and M destructions of its handles (each one
    acting on a handle that exists) with N >= M the count is 1 + N - M, the
    pool and the record of deleter calls being as they were; when the last
    decrement brings the count to 0 (M = N + 1), the sequence still
    returns, the deleter has been called exactly once more, and
    [imageCount()] is lower by exactly one. *)
Theorem refCount_after_copies_and_destructions
  (d : list byte) (s : Size) (w w1 : World) (h : ImageRef) (ops : list handle_op) :
  ImagePool_create d s w = Returns (h, w1) ->
  handles_alive 1 ops = true ->
  exists a w2,
    image_ h = Some a /\
    refCount_at a w1 = Some 1 /\
    run_handle_ops h ops w1 = Returns w2 /\
    (destructions ops <= copies ops ->
       refCount_at a w2 = Some (1 + copies ops - destructions ops) /\
       imageCount (pool w2) = imageCount (pool w1) /\
       teardowns w2 = teardowns w1) /\
    (destructions ops = copies ops + 1 ->
       imageCount (pool w2) = imageCount (pool w1) - 1 /\
       teardowns w2 = a :: teardowns w1).
Proof.
  intros Hcreate Halive.
  rewrite ImagePool_create_returns in Hcreate.
  injection Hcreate as Hh Hw1.
  pose proof (lookup_created d s w) as Hlive. rewrite Hw1 in Hlive.
  assert (Hone : 1 <= refCount_ (mkImage d s PoolRemove 1) <= INT_MAX)
    by (simpl; unfold INT_MAX; lia).
  destruct (run_handle_ops_count (fresh_addr (images_ (pool w))) ops w1
              (mkImage d s PoolRemove 1) Hlive eq_refl Hone Halive)
    as (w2 & Hrun & Hnn & Hkeep & Hgone).
  change (refCount_ (mkImage d s PoolRemove 1)) with 1 in Hnn, Hkeep, Hgone.
  exists (fresh_addr (images_ (pool w))), w2. subst h.
  split; [reflexivity |].
  split; [unfold refCount_at; now rewrite Hlive |].
  split; [exact Hrun |].
  split.
  - intros Hle. destruct Hkeep as (Hl & Hc & Ht); [lia |].
    unfold refCount_at. rewrite Hl. auto.
  - intros Heq. apply Hgone. lia.
Qed.

Lemma refCount_after_copies_and_destructions_witness :
  exists a w2,
    image_ (mkImageRef (Some 1%nat)) = Some a /\
    refCount_at a (one_image_world 1%nat (mkImage [] (mkSize 0 0) PoolRemove 1)) = Some 1 /\
    run_handle_ops (mkImageRef (Some 1%nat)) [CopyHandle; DestroyHandle; DestroyHandle]
      (one_image_world 1%nat (mkImage [] (mkSize 0 0) PoolRemove 1)) = Returns w2 /\
    (destructions [CopyHandle; DestroyHandle; DestroyHandle]
       <= copies [CopyHandle; DestroyHandle; DestroyHandle] ->
       refCount_at a w2 =
         Some (1 + copies [CopyHandle; DestroyHandle; DestroyHandle]
                 - destructions [CopyHandle; DestroyHandle; DestroyHandle]) /\
       imageCount (pool w2)
         = imageCount (pool (one_image_world 1%nat (mkImage [] (mkSize 0 0) PoolRemove 1))) /\
       teardowns w2 = teardowns (one_image_world 1%nat (mkImage [] (mkSize 0 0) PoolRemove 1))) /\
    (destructions [CopyHandle; DestroyHandle; DestroyHandle]
       = copies [CopyHandle; DestroyHandle; DestroyHandle] + 1 ->
       imageCount (pool w2)
         = imageCount (pool (one_image_world 1%nat (mkImage [] (mkSize 0 0) PoolRemove 1))) - 1 /\
       teardowns w2
         = a :: teardowns (one_image_world 1%nat (mkImage [] (mkSize 0 0) PoolRemove 1))).
Proof.
  apply (refCount_after_copies_and_destructions [] (mkSize 0 0) empty_world);
    reflexivity.
Defined.

(** C3, as the code has it: [ImagePool::create(buffer, size)] compares
    nothing: for every buffer and every size, whether or not the buffer has
    [size.width * size.height * 4] bytes, it returns a handle to a new
    image holding that buffer and that size with count 1, and
    [imageCount()] is larger by exactly one. *)
Theorem create_accepts_every_buffer (d : list byte) (s : Size) (w : World) :
  exists h w',
    ImagePool_create d s w = Returns (h, w') /\
    ImageRef_get h w' = Returns (mkImage d s PoolRemove 1) /\
    imageCount (pool w') = imageCount (pool w) + 1 /\
    teardowns w' = teardowns w.
Proof.
  eexists _, _. split; [apply ImagePool_create_returns |].
  split; [| split; [apply imageCount_created | reflexivity]].
  unfold ImageRef_get. cbn [image_]. now rewrite lookup_created.
Qed.

(** C3 as stated fails: an empty buffer for a 1x1 image (4 bytes expected)
    is accepted, and the pool grows. *)
Lemma create_mismatched_buffer_succeeds :
  Z.of_nat (length (@nil byte)) <> width (mkSize 1 1) * height (mkSize 1 1) * 4 /\
  exists h w',
    ImagePool_create [] (mkSize 1 1) empty_world = Returns (h, w') /\
    imageCount (pool w') <> imageCount (pool empty_world).
Proof.
  split; [discriminate |].
  eexists _, _. split; [reflexivity | discriminate].
Qed.

(** C4, as the code has it: [unref()] on an image whose count is 0
    decrements it to -1 and returns normally: the deleter is not called,
    the image stays in the pool, nothing is raised. *)
Theorem unref_at_zero_goes_negative (a : addr) (w : World) (i : Image) :
  lookup a w = Some i ->
  refCount_ i = 0 ->
  exists w',
    Image_unref a w = Returns w' /\
    refCount_at a w' = Some (-1) /\
    imageCount (pool w') = imageCount (pool w) /\
    teardowns w' = teardowns w.
Proof.
  intros Hlive Hzero.
  exists (write_refCount a i (refCount_ i - 1) w). split.
  - apply Image_unref_returns; [exact Hlive | | lia].
    rewrite Hzero. unfold INT_MIN, INT_MAX. lia.
  - unfold refCount_at. rewrite (lookup_write a w i Hlive), Hzero.
    split; [reflexivity |]. split; [apply imageCount_write | reflexivity].
Qed.

Lemma unref_at_zero_goes_negative_witness :
  exists w',
    Image_unref 1%nat (one_image_world 1%nat (Image_new [] (mkSize 0 0) PoolRemove)) = Returns w' /\
    refCount_at 1%nat w' = Some (-1) /\
    imageCount (pool w')
      = imageCount (pool (one_image_world 1%nat (Image_new [] (mkSize 0 0) PoolRemove))) /\
    teardowns w' = teardowns (one_image_world 1%nat (Image_new [] (mkSize 0 0) PoolRemove)).
Proof.
  apply (unref_at_zero_goes_negative 1%nat
           (one_image_world 1%nat (Image_new [] (mkSize 0 0) PoolRemove))
           (Image_new [] (mkSize 0 0) PoolRemove));
    reflexivity.
Defined.

(** C4 as stated fails: with the count at 0, [unref()] returns and the
    count reads -1. *)
Lemma unref_at_zero_returns :
  refCount_at 1%nat (one_image_world 1%nat (Image_new [] (mkSize 0 0) PoolRemove)) = Some 0 /\
  Image_unref 1%nat (one_image_world 1%nat (Image_new [] (mkSize 0 0) PoolRemove))
  = Returns (one_image_world 1%nat (mkImage [] (mkSize 0 0) PoolRemove (-1))).
Proof. split; reflexivity. Qed.

(** ** Fragments *)

Lemma firstn_then_firstn {A : Type} (n m : nat) (l : list A) :
  firstn n l ++ firstn m (skipn n l) = firstn (n + m) l.
Proof.
  revert l. induction n as [| n IH]; intros l; [reflexivity |].
  destruct l as [| x l]; simpl.
  - now rewrite firstn_nil.
  - now rewrite IH.
Qed.

Lemma copy_range_returns (v : list byte) (start n : Z) :
  0 <= start < Z.of_nat (length v) -> 0 <= n -> start + n <= Z.of_nat (length v) ->
  copy_range v start n = Returns (firstn (Z.to_nat n) (skipn (Z.to_nat start) v)).
Proof.
  intros [H0 H1] Hn He. unfold copy_range.
  apply Z.leb_le in H0, Hn, He. apply Z.ltb_lt in H1.
  now rewrite H0, H1, Hn, He.
Qed.

(** The rows the loop copies are consecutive in the parent buffer, from
    its first byte on. *)
Lemma copy_rows_returns (full : list byte) (s : Size) :
  0 < width s ->
  forall (n : nat) (y : Z) (acc : list byte),
    0 <= y ->
    (y + Z.of_nat n) * width s * 4 <= Z.of_nat (length full) ->
    (y + Z.of_nat n) * width s * 4 <= INT_MAX ->
    copy_rows full s y n acc =
    Returns (acc ++ firstn (Z.to_nat (Z.of_nat n * width s * 4))
                      (skipn (Z.to_nat (y * width s * 4)) full)).
Proof.
  intros Hw. induction n as [| n IH]; intros y acc Hy Hlen Hmax.
  - simpl. now rewrite app_nil_r.
  - cbn [copy_rows].
    assert (Hmin : INT_MIN <= 0) by (unfold INT_MIN; lia).
    rewrite int_mul_ok by nia. cbn [bind].
    rewrite int_mul_ok by nia. cbn [bind].
    rewrite int_mul_ok by nia. cbn [bind].
    rewrite copy_range_returns by nia. cbn [bind].
    rewrite IH by nia.
    rewrite <- app_assoc. do 2 f_equal.
    replace (Z.to_nat ((y + 1) * width s * 4))
      with (Z.to_nat (width s * 4) + Z.to_nat (y * width s * 4))%nat
      by (rewrite <- Z2Nat.inj_add by nia; f_equal; lia).
    rewrite <- skipn_skipn, firstn_then_firstn.
    f_equal. rewrite <- Z2Nat.inj_add by nia. f_equal. lia.
Qed.

(** With a parent buffer that is long enough, [data()] is the first
    [width * height * 4] bytes of the parent buffer. *)
Lemma ImageFragment_data_returns (f : ImageFragment) (w : World) (a : addr) (i : Image) :
  image_ (frag_image_ f) = Some a ->
  lookup a w = Some i ->
  0 < width (frag_size_ f) -> 0 <= height (frag_size_ f) ->
  width (frag_size_ f) * height (frag_size_ f) * 4 <= Z.of_nat (length (data_ i)) ->
  width (frag_size_ f) * height (frag_size_ f) * 4 <= INT_MAX ->
  ImageFragment_data f w =
  Returns (firstn (Z.to_nat (width (frag_size_ f) * height (frag_size_ f) * 4)) (data_ i)).
Proof.
  intros Hptr Hlive Hw Hh Hlen Hmax.
  unfold ImageFragment_data, ImageRef_get. rewrite Hptr, Hlive. cbn [bind].
  assert (Hmin : INT_MIN <= 0) by (unfold INT_MIN; lia).
  rewrite int_mul_ok by nia. cbn [bind].
  rewrite int_mul_ok by nia. cbn [bind].
  unfold vector_size_arg.
  destruct (Z.ltb_spec (width (frag_size_ f) * height (frag_size_ f) * 4) 0) as [Hneg | _];
    [nia |]. cbn [bind].
  rewrite copy_rows_returns by (rewrite ?Z2Nat.id by lia; nia || lia).
  simpl app. rewrite Z2Nat.id by lia.
  do 2 f_equal. lia.
Qed.

(** [data()] does not depend on the offset of the fragment. *)
Lemma ImageFragment_data_any_offset (r : ImageRef) (off off' : Coordinate) (s : Size) (w : World) :
  ImageFragment_data (mkImageFragment r off s) w
  = ImageFragment_data (mkImageFragment r off' s) w.
Proof. reflexivity. Qed.

(** C1 at a fragment below the top of its image.  The image is one pixel
    wide and two high, red above blue; the fragment is the one pixel at
    row 1.  The row the claim names starts at byte
    [(offset.row + 0) * parentWidth * 4 = 4], the blue pixel; [data()]
    returns the red one. *)
Theorem data_of_second_row_is_first_row :
  ImageFragment_data (second_row_fragment 1%nat) (one_image_world 1%nat red_over_blue)
  = Returns [xff; x00; x00; xff] /\
  firstn (Z.to_nat (width (mkSize 1 1) * 4))
         (skipn (Z.to_nat ((row (offset_ (second_row_fragment 1%nat)) + 0)
                           * Image_width red_over_blue * 4))
                (data_ red_over_blue))
  = [x00; x00; xff; xff] /\
  [xff; x00; x00; xff] <> [x00; x00; xff; xff].
Proof. repeat split; discriminate. Qed.

(** ** Rasterized images *)

(** C5, as the code has it: [fragment(position)] tests nothing about the
    position.  Take a rasterized image with a strictly positive cell span,
    whose image has a width that is an [int], a reference count that can
    be incremented within [int], and a buffer of at least
    [cellSpan.width * cellSpan.height * 4] bytes, that number being at
    most [INT_MAX]; and take any position, inside the span or outside it,
    for which [position.row * image.width()] and
    [position.column * (image.width() / cellSpan.width)] are [int]s.  Then
    [fragment(position)] returns the fragment of that image with pixel
    offset
    [(position.row * image.width(),
      position.column * (image.width() / cellSpan.width))] and size
    [cellSpan], and the [data()] of that fragment returns a buffer of
    exactly [cellSpan.width * cellSpan.height * 4] bytes.  No position
    makes the call fail. *)
Theorem fragment_at_any_position
  (r : RasterizedImage) (pos : Coordinate) (w : World) (a : addr) (i : Image) :
  image_ (image r) = Some a ->
  lookup a w = Some i ->
  0 < width (cellSpan r) -> 0 < height (cellSpan r) ->
  INT_MIN <= Image_width i <= INT_MAX ->
  INT_MIN <= row pos * Image_width i <= INT_MAX ->
  INT_MIN <= column pos * Z.quot (Image_width i) (width (cellSpan r)) <= INT_MAX ->
  INT_MIN <= refCount_ i + 1 <= INT_MAX ->
  width (cellSpan r) * height (cellSpan r) * 4 <= Z.of_nat (length (data_ i)) ->
  width (cellSpan r) * height (cellSpan r) * 4 <= INT_MAX ->
  exists f w' buf,
    RasterizedImage_fragment r pos w = Returns (f, w') /\
    frag_image_ f = image r /\
    offset_ f = mkCoordinate (row pos * Image_width i)
                  (column pos * Z.quot (Image_width i) (width (cellSpan r))) /\
    frag_size_ f = cellSpan r /\
    ImageFragment_data f w' = Returns buf /\
    Z.of_nat (length buf) = width (cellSpan r) * height (cellSpan r) * 4.
Proof.
  intros Hptr Hlive Hw Hh Hiw Hrow Hcol Hrc Hlen Hmax.
  set (f := mkImageFragment (mkImageRef (Some a))
              (mkCoordinate (row pos * Image_width i)
                 (column pos * Z.quot (Image_width i) (width (cellSpan r))))
              (cellSpan r)).
  set (w' := write_refCount a i (refCount_ i + 1) w).
  assert (Hdata : ImageFragment_data f w' =
                  Returns (firstn (Z.to_nat (width (cellSpan r) * height (cellSpan r) * 4))
                             (data_ i))).
  { apply (ImageFragment_data_returns f w' a (set_refCount i (refCount_ i + 1)));
      simpl; auto; try lia.
    apply (lookup_write a w i Hlive). }
  exists f, w', (firstn (Z.to_nat (width (cellSpan r) * height (cellSpan r) * 4)) (data_ i)).
  split.
  { unfold RasterizedImage_fragment, ImageRef_get. rewrite Hptr, Hlive. cbn [bind].
    rewrite int_div_ok by (try apply quot_pos_in_int; lia). cbn [bind].
    rewrite int_mul_ok by exact Hrow. cbn [bind].
    rewrite int_mul_ok by exact Hcol. cbn [bind].
    unfold ImageFragment_new, ImageRef_new.
    rewrite (Image_ref_returns a w i Hlive Hrc). reflexivity. }
  split; [destruct r as [[p] ? ? ?]; simpl in *; now subst p |].
  split; [reflexivity |]. split; [reflexivity |]. split; [exact Hdata |].
  rewrite length_firstn. lia.
Qed.

Lemma fragment_at_any_position_witness :
  exists f w' buf,
    RasterizedImage_fragment (rasterized 1%nat (mkSize 1 2)) (mkCoordinate 5 7)
      (one_image_world 1%nat red_over_blue) = Returns (f, w') /\
    frag_image_ f = image (rasterized 1%nat (mkSize 1 2)) /\
    offset_ f = mkCoordinate (row (mkCoordinate 5 7) * Image_width red_over_blue)
                  (column (mkCoordinate 5 7)
                   * Z.quot (Image_width red_over_blue)
                       (width (cellSpan (rasterized 1%nat (mkSize 1 2))))) /\
    frag_size_ f = cellSpan (rasterized 1%nat (mkSize 1 2)) /\
    ImageFragment_data f w' = Returns buf /\
    Z.of_nat (length buf)
      = width (cellSpan (rasterized 1%nat (mkSize 1 2)))
        * height (cellSpan (rasterized 1%nat (mkSize 1 2))) * 4.
Proof.
  apply (fragment_at_any_position (rasterized 1%nat (mkSize 1 2)) (mkCoordinate 5 7)
           (one_image_world 1%nat red_over_blue) 1%nat red_over_blue);
    try reflexivity; try (apply in_int_bounds; reflexivity);
    apply Z.leb_le; reflexivity.
Defined.

(** C5 as stated fails: row 5, column 7 lies outside a span of one cell,
    and [fragment] returns a fragment for it. *)
Lemma fragment_out_of_range_returns :
  ~ (0 <= row (mkCoordinate 5 7) < height (cellSpan (rasterized 1%nat (mkSize 1 1)))) /\
  RasterizedImage_fragment (rasterized 1%nat (mkSize 1 1)) (mkCoordinate 5 7)
    (one_image_world 1%nat red_over_blue)
  = Returns (mkImageFragment (mkImageRef (Some 1%nat)) (mkCoordinate 5 7) (mkSize 1 1),
             one_image_world 1%nat (set_refCount red_over_blue 2)).
Proof. split; [simpl; lia | reflexivity]. Qed.

(** Whatever the division of sizes does, [cellSize()] lets no exception
    out. *)
Lemma cellSize_over_never_throws (div : Size -> Size -> outcome Size)
  (r : RasterizedImage) (w : World) (e : exception) :
  RasterizedImage_cellSize_over div r w <> Throws e.
Proof. apply noexcept_never_throws. Qed.

(** C6, as the code has it: for an image whose dimensions are [int]s and a
    cell span with both dimensions strictly positive, [cellSize()] is
    [(image.width() / cellSpan.width, image.height() / cellSpan.height)],
    each quotient truncated towards zero.  With a cell span dimension equal
    to 0 the division by zero is undefined behaviour; no error is raised,
    in that case or in any other. *)
Theorem cellSize_is_truncated_quotient
  (r : RasterizedImage) (w : World) (a : addr) (i : Image) :
  image_ (image r) = Some a ->
  lookup a w = Some i ->
  INT_MIN <= Image_width i <= INT_MAX ->
  INT_MIN <= Image_height i <= INT_MAX ->
  (0 < width (cellSpan r) -> 0 < height (cellSpan r) ->
     RasterizedImage_cellSize r w
     = Returns (mkSize (Z.quot (Image_width i) (width (cellSpan r)))
                       (Z.quot (Image_height i) (height (cellSpan r))))) /\
  (width (cellSpan r) = 0 \/ height (cellSpan r) = 0 ->
     RasterizedImage_cellSize r w = Undefined) /\
  (forall e, RasterizedImage_cellSize r w <> Throws e).
Proof.
  intros Hptr Hlive Hiw Hih.
  split; [| split; [| intros e; apply cellSize_over_never_throws]];
    unfold RasterizedImage_cellSize, RasterizedImage_cellSize_over, ImageRef_get;
    rewrite Hptr, Hlive; cbn [bind];
    unfold Image_width, Image_height in *.
  - intros Hw Hh. unfold Size_div.
    rewrite int_div_ok by (try apply quot_pos_in_int; lia). cbn [bind].
    rewrite int_div_ok by (try apply quot_pos_in_int; lia). reflexivity.
  - intros [Hz | Hz]; unfold Size_div; rewrite Hz.
    + reflexivity.
    + destruct (int_div (width (size_ i)) (width (cellSpan r))) as [q | e | |] eqn:E;
        [reflexivity | now apply int_div_never_throws in E | | reflexivity].
      unfold int_div, int_result in E.
      destruct (width (cellSpan r) =? 0); [discriminate |].
      destruct (in_int _); discriminate.
Qed.

Lemma cellSize_is_truncated_quotient_witness :
  (0 < width (cellSpan (rasterized 1%nat (mkSize 1 2))) ->
   0 < height (cellSpan (rasterized 1%nat (mkSize 1 2))) ->
     RasterizedImage_cellSize (rasterized 1%nat (mkSize 1 2))
       (one_image_world 1%nat red_over_blue)
     = Returns (mkSize (Z.quot (Image_width red_over_blue)
                          (width (cellSpan (rasterized 1%nat (mkSize 1 2)))))
                       (Z.quot (Image_height red_over_blue)
                          (height (cellSpan (rasterized 1%nat (mkSize 1 2))))))) /\
  (width (cellSpan (rasterized 1%nat (mkSize 1 2))) = 0
   \/ height (cellSpan (rasterized 1%nat (mkSize 1 2))) = 0 ->
     RasterizedImage_cellSize (rasterized 1%nat (mkSize 1 2))
       (one_image_world 1%nat red_over_blue) = Undefined) /\
  (forall e, RasterizedImage_cellSize (rasterized 1%nat (mkSize 1 2))
               (one_image_world 1%nat red_over_blue) <> Throws e).
Proof.
  apply (cellSize_is_truncated_quotient (rasterized 1%nat (mkSize 1 2))
           (one_image_world 1%nat red_over_blue) 1%nat red_over_blue);
    try reflexivity; apply in_int_bounds; reflexivity.
Defined.

(** C6 as stated fails: with a cell span zero cells wide, [cellSize()]
    divides by zero, which is undefined behaviour and not a reported
    error. *)
Lemma cellSize_of_zero_span_is_undefined :
  width (cellSpan (rasterized 1%nat (mkSize 0 1))) = 0 /\
  RasterizedImage_cellSize (rasterized 1%nat (mkSize 0 1))
    (one_image_world 1%nat red_over_blue) = Undefined /\
  (forall e, RasterizedImage_cellSize (rasterized 1%nat (mkSize 0 1))
               (one_image_world 1%nat red_over_blue) <> Throws e).
Proof. repeat split; discriminate. Qed.

(** ** The renderer *)

Lemma clearCache_pool (n : nat) (r : ImageRenderer) :
  imagePool_ (Nat.iter n ImageRenderer_clearCache r) = imagePool_ r.
Proof. induction n as [| n IH]; simpl; [reflexivity | exact IH]. Qed.

(** C9: [clearCache()] leaves the atlas cache empty; on a renderer whose
    cache is empty it changes nothing, and a second call changes nothing
    after a first; the pool, and with it [imageCount()], is the same after
    any number of calls. *)
Theorem clearCache_empties_the_atlas_only
  (r : ImageRenderer) (p : ImagePool) (c : Size) :
  entries (atlas_ (ImageRenderer_clearCache r)) = [] /\
  ImageRenderer_clearCache (mkImageRenderer p c (mkTextureAtlas []))
  = mkImageRenderer p c (mkTextureAtlas []) /\
  ImageRenderer_clearCache (ImageRenderer_clearCache r) = ImageRenderer_clearCache r /\
  (forall n : nat,
     imagePool_ (Nat.iter n ImageRenderer_clearCache r) = imagePool_ r /\
     imageCount (imagePool_ (Nat.iter n ImageRenderer_clearCache r))
     = imageCount (imagePool_ r)).
Proof.
  repeat split; try reflexivity; now rewrite clearCache_pool.
Qed.

(** From construction on, whatever is called on the renderer, its atlas
    cache and its pool are empty: nothing in the renderer adds to either. *)
Lemma renderer_reachable_empty (cs : Size) (calls : list renderer_call) :
  entries (atlas_ (fold_left renderer_step calls (ImageRenderer_new cs))) = [] /\
  imageCount (imagePool_ (fold_left renderer_step calls (ImageRenderer_new cs))) = 0.
Proof.
  assert (H : forall r, entries (atlas_ r) = [] -> imageCount (imagePool_ r) = 0 ->
                entries (atlas_ (fold_left renderer_step calls r)) = [] /\
                imageCount (imagePool_ (fold_left renderer_step calls r)) = 0).
  { induction calls as [| c calls IH]; intros r Ha Hp; [now split |].
    simpl. apply IH; destruct c; simpl; auto. }
  apply H; reflexivity.
Qed.

(** ** Assignment of handles *)

Lemma lookup_remove_other (a b : addr) (w : World) :
  a <> b -> lookup a (ImagePool_remove b w) = lookup a w.
Proof. intros H. unfold lookup, ImagePool_remove; simpl. now apply find_erase_other. Qed.

(** A decrement of the image at [b] leaves every other image as it is. *)
Lemma Image_unref_other (a b : addr) (w w' : World) :
  a <> b -> Image_unref b w = Returns w' -> lookup a w' = lookup a w.
Proof.
  intros Hab. unfold Image_unref.
  destruct (lookup b w) as [j |] eqn:Hb; [| discriminate].
  unfold int_result. destruct (in_int (refCount_ j - 1)); [| discriminate]. cbn [bind].
  destruct (refCount_ j - 1 =? 0).
  - destruct (deleter_ j); simpl; [discriminate |].
    intros H. injection H as <-.
    rewrite lookup_remove_other by exact Hab.
    apply (lookup_write_other b w j a _ Hab).
  - intros H. injection H as <-. apply (lookup_write_other b w j a _ Hab).
Qed.

(** C10: move assignment [h = move(r)], with [h] referring to the image at
    [a] and [r] to another image or to none, changes no image: the count of
    the image at [a] is what it was, [h] refers to what [r] referred to and
    [r] to nothing, and destroying [h] afterwards leaves the image at [a]
    as it is.  The destructor of [h], and the copy assignment [h = r],
    decrement that count instead. *)
Theorem move_assign_keeps_the_old_count
  (h r : ImageRef) (w : World) (a : addr) (i : Image) :
  image_ h = Some a ->
  lookup a w = Some i ->
  image_ r <> Some a ->
  (exists h' : ImageRef,
     ImageRef_move_assign h (Other r) w = Returns (h', Other (mkImageRef None), w) /\
     image_ h' = image_ r /\
     refCount_at a w = Some (refCount_ i) /\
     (forall w'', ImageRef_destroy h' w = Returns w'' -> lookup a w'' = Some i)) /\
  (2 <= refCount_ i <= INT_MAX ->
     exists w1, ImageRef_destroy h w = Returns w1 /\
                refCount_at a w1 = Some (refCount_ i - 1)) /\
  (2 <= refCount_ i <= INT_MAX ->
     forall (b : addr) (j : Image),
       image_ r = Some b -> lookup b w = Some j -> refCount_ j < INT_MAX ->
       INT_MIN <= refCount_ j + 1 ->
       exists h2 w2, ImageRef_assign h (Other r) w = Returns (h2, w2) /\
                     image_ h2 = Some b /\
                     refCount_at a w2 = Some (refCount_ i - 1)).
Proof.
  intros Hh Hlive Hr.
  assert (Hdec : 2 <= refCount_ i <= INT_MAX ->
                 Image_unref a w = Returns (write_refCount a i (refCount_ i - 1) w)).
  { intros Hc. apply Image_unref_returns; [exact Hlive | | lia].
    unfold INT_MIN, INT_MAX in *. lia. }
  split; [| split].
  - exists (mkImageRef (image_ r)). split; [reflexivity |]. split; [reflexivity |].
    split; [unfold refCount_at; now rewrite Hlive |].
    intros w'' Hun. unfold ImageRef_destroy in Hun. cbn [image_] in Hun.
    apply (proj1 (noexcept_returns _ _)) in Hun.
    destruct (image_ r) as [b |] eqn:Eb.
    + rewrite <- Hlive. apply (Image_unref_other a b w w''); [congruence | exact Hun].
    + injection Hun as <-. exact Hlive.
  - intros Hc. exists (write_refCount a i (refCount_ i - 1) w).
    unfold ImageRef_destroy. rewrite Hh, (Hdec Hc). split; [reflexivity |].
    unfold refCount_at. now rewrite (lookup_write a w i Hlive).
  - intros Hc b j Hb Hj Hmax Hmin.
    assert (Hba : b <> a) by congruence.
    set (w1 := write_refCount a i (refCount_ i - 1) w).
    assert (Hj1 : lookup b w1 = Some j).
    { unfold w1. rewrite (lookup_write_other a w i b _ Hba). exact Hj. }
    exists (mkImageRef (image_ r)), (write_refCount b j (refCount_ j + 1) w1).
    split; [| split; [exact Hb |]].
    + unfold ImageRef_assign. rewrite Hh, (Hdec Hc). cbn [bind]. rewrite Hb.
      fold w1. rewrite (Image_ref_returns b w1 j Hj1) by lia. reflexivity.
    + unfold refCount_at.
      rewrite (lookup_write_other b w1 j a) by congruence.
      unfold w1. now rewrite (lookup_write a w i Hlive).
Qed.

Lemma move_assign_keeps_the_old_count_witness :
  (exists h' : ImageRef,
     ImageRef_move_assign (mkImageRef (Some 1%nat)) (Other (mkImageRef (Some 2%nat)))
       two_image_world
     = Returns (h', Other (mkImageRef None), two_image_world) /\
     image_ h' = image_ (mkImageRef (Some 2%nat)) /\
     refCount_at 1%nat two_image_world
     = Some (refCount_ (mkImage [] (mkSize 0 0) PoolRemove 2)) /\
     (forall w'', ImageRef_destroy h' two_image_world = Returns w'' ->
                  lookup 1%nat w'' = Some (mkImage [] (mkSize 0 0) PoolRemove 2))) /\
  (2 <= refCount_ (mkImage [] (mkSize 0 0) PoolRemove 2) <= INT_MAX ->
     exists w1, ImageRef_destroy (mkImageRef (Some 1%nat)) two_image_world = Returns w1 /\
                refCount_at 1%nat w1
                = Some (refCount_ (mkImage [] (mkSize 0 0) PoolRemove 2) - 1)) /\
  (2 <= refCount_ (mkImage [] (mkSize 0 0) PoolRemove 2) <= INT_MAX ->
     forall (b : addr) (j : Image),
       image_ (mkImageRef (Some 2%nat)) = Some b -> lookup b two_image_world = Some j ->
       refCount_ j < INT_MAX -> INT_MIN <= refCount_ j + 1 ->
       exists h2 w2,
         ImageRef_assign (mkImageRef (Some 1%nat)) (Other (mkImageRef (Some 2%nat)))
           two_image_world = Returns (h2, w2) /\
         image_ h2 = Some b /\
         refCount_at 1%nat w2
         = Some (refCount_ (mkImage [] (mkSize 0 0) PoolRemove 2) - 1)).
Proof.
  apply (move_assign_keeps_the_old_count (mkImageRef (Some 1%nat))
           (mkImageRef (Some 2%nat)) two_image_world 1%nat
           (mkImage [] (mkSize 0 0) PoolRemove 2));
    [reflexivity | reflexivity | discriminate].
Defined.

(** ** Images from RGB colours *)

Lemma replace_nth_app (pre l : list byte) (j : nat) (b : byte) :
  replace_nth (length pre + j) b (pre ++ l) = pre ++ replace_nth j b l.
Proof. induction pre as [| y pre IH]; simpl; [reflexivity | now rewrite IH]. Qed.

Lemma vector_set_app (pre l : list byte) (k j : nat) (b : byte) :
  k = (length pre + j)%nat -> (j < length l)%nat ->
  vector_set (pre ++ l) k b = Returns (pre ++ replace_nth j b l).
Proof.
  intros -> Hj. unfold vector_set.
  assert (H : (length pre + j <? length (pre ++ l))%nat = true)
    by (apply Nat.ltb_lt; rewrite length_app; lia).
  now rewrite H, replace_nth_app.
Qed.

(** The loop writes one quad per colour, in order, and leaves the bytes
    behind them as [resize] made them. *)
Lemma write_colors_returns (cs : list RGBColor) :
  forall (pre : list byte) (k : nat),
    write_colors cs (length pre) (pre ++ repeat x00 (4 * length cs + k))
    = Returns (pre ++ flat_map rgba_quad cs ++ repeat x00 k).
Proof.
  induction cs as [| c cs IH]; intros pre k; [reflexivity |].
  replace (4 * length (c :: cs) + k)%nat with (S (S (S (S (4 * length cs + k)))))
    by (simpl length; lia).
  cbn [write_colors repeat].
  rewrite (vector_set_app pre _ (length pre) 0) by (simpl; lia). cbn [bind].
  rewrite (vector_set_app pre _ (length pre + 1) 1) by (simpl; lia). cbn [bind].
  rewrite (vector_set_app pre _ (length pre + 2) 2) by (simpl; lia). cbn [bind].
  rewrite (vector_set_app pre _ (length pre + 3) 3) by (simpl; lia). cbn [bind].
  cbn [replace_nth].
  change (pre ++ red c :: green c :: blue c :: xff :: ?l)
    with (pre ++ rgba_quad c ++ l).
  rewrite app_assoc.
  replace (length pre + 4)%nat with (length (pre ++ rgba_quad c))
    by (rewrite length_app; reflexivity).
  rewrite IH. cbn [flat_map]. now rewrite <- !app_assoc.
Qed.

(** What the RGB overload hands to the RGBA overload when the colours fit
    into the buffer. *)
Lemma ImagePool_create_rgb_delegates (cs : list RGBColor) (s : Size) (w : World) :
  Z.of_nat (length cs) <= width s * height s ->
  width s * height s * 4 <= INT_MAX ->
  ImagePool_create_rgb cs s w =
  ImagePool_create
    (flat_map rgba_quad cs
       ++ repeat x00 (Z.to_nat (width s * height s * 4) - 4 * length cs))
    s w.
Proof.
  intros Hlen Hmax. unfold ImagePool_create_rgb.
  assert (Hmin : INT_MIN <= 0) by (unfold INT_MIN; lia).
  rewrite int_mul_ok by lia. cbn [bind].
  rewrite int_mul_ok by lia. cbn [bind].
  unfold vector_size_arg.
  destruct (Z.ltb_spec (width s * height s * 4) 0) as [Hneg | _]; [lia |]. cbn [bind].
  pose proof (write_colors_returns cs []
                (Z.to_nat (width s * height s * 4) - 4 * length cs)) as Hwrite.
  cbn [app] in Hwrite. change (length (@nil byte)) with O in Hwrite.
  replace (4 * length cs + (Z.to_nat (width s * height s * 4) - 4 * length cs))%nat
    with (Z.to_nat (width s * height s * 4)) in Hwrite by lia.
  rewrite Hwrite. reflexivity.
Qed.

Lemma length_flat_map_rgba (cs : list RGBColor) :
  length (flat_map rgba_quad cs) = (4 * length cs)%nat.
Proof. induction cs as [| c cs IH]; simpl; [reflexivity | rewrite IH; lia]. Qed.

Lemma alpha_of_flat_map_rgba (cs : list RGBColor) (k : nat) :
  (k < length cs)%nat -> nth (4 * k + 3) (flat_map rgba_quad cs) x00 = xff.
Proof.
  revert k. induction cs as [| c cs IH]; intros k Hk; simpl in Hk; [lia |].
  destruct k as [| k]; [reflexivity |].
  replace (4 * S k + 3)%nat with (S (S (S (S (4 * k + 3))))) by lia.
  simpl. apply IH. lia.
Qed.

(** C7, as the code has it: [ImagePool::create(colorArray, size)] compares
    no lengths.  When the array has at most [size.width * size.height]
    colours (and the byte count is an [int]) it returns a handle to a new
    image of that size, whose buffer of [size.width * size.height * 4]
    bytes holds the quads of the colours followed by zero bytes, and
    [imageCount()] is larger by exactly one. *)
Theorem create_rgb_accepts_short_arrays (cs : list RGBColor) (s : Size) (w : World) :
  Z.of_nat (length cs) <= width s * height s ->
  width s * height s * 4 <= INT_MAX ->
  exists h w',
    ImagePool_create_rgb cs s w = Returns (h, w') /\
    ImageRef_get h w'
    = Returns (mkImage (flat_map rgba_quad cs
                          ++ repeat x00 (4 * (Z.to_nat (width s * height s) - length cs)))
                       s PoolRemove 1) /\
    imageCount (pool w') = imageCount (pool w) + 1.
Proof.
  intros Hlen Hmax.
  rewrite ImagePool_create_rgb_delegates by assumption.
  replace (Z.to_nat (width s * height s * 4) - 4 * length cs)%nat
    with (4 * (Z.to_nat (width s * height s) - length cs))%nat by lia.
  rewrite ImagePool_create_returns.
  eexists _, _. split; [reflexivity |].
  split; [| apply imageCount_created].
  unfold ImageRef_get. cbn [image_]. now rewrite lookup_created.
Qed.

Lemma create_rgb_accepts_short_arrays_witness :
  exists h w',
    ImagePool_create_rgb [mkRGB x01 x02 x03] (mkSize 2 1) empty_world = Returns (h, w') /\
    ImageRef_get h w'
    = Returns (mkImage (flat_map rgba_quad [mkRGB x01 x02 x03]
                          ++ repeat x00 (4 * (Z.to_nat (width (mkSize 2 1) * height (mkSize 2 1))
                                              - length [mkRGB x01 x02 x03])))
                       (mkSize 2 1) PoolRemove 1) /\
    imageCount (pool w') = imageCount (pool empty_world) + 1.
Proof.
  apply (create_rgb_accepts_short_arrays [mkRGB x01 x02 x03] (mkSize 2 1) empty_world);
    apply Z.leb_le; reflexivity.
Defined.

(** C7 as stated fails: an empty colour array for a 1x1 image (one colour
    expected) is accepted, and the pool grows by an image of four zero
    bytes. *)
Lemma create_rgb_mismatched_array_succeeds :
  Z.of_nat (length (@nil RGBColor)) <> width (mkSize 1 1) * height (mkSize 1 1) /\
  ImagePool_create_rgb [] (mkSize 1 1) empty_world
  = Returns (mkImageRef (Some 1%nat),
             one_image_world 1%nat (mkImage [x00; x00; x00; x00] (mkSize 1 1) PoolRemove 1)) /\
  imageCount (pool (one_image_world 1%nat
                      (mkImage [x00; x00; x00; x00] (mkSize 1 1) PoolRemove 1)))
  <> imageCount (pool empty_world).
Proof. repeat split; discriminate. Qed.

(** C8, as the code has it: for an RGB colour array of length [w * h]
    with [w * h * 4 <= INT_MAX] (the overload computes the byte count in
    [int]), [ImagePool::create(colorArray, size)] returns a handle to an
    image whose [size()] is [(w, h)] and whose buffer is the array with
    each colour expanded to its RGBA quad; the alpha byte of every pixel
    is 255. *)
Theorem create_rgb_expands_to_opaque_rgba (cs : list RGBColor) (s : Size) (w : World) :
  Z.of_nat (length cs) = width s * height s ->
  width s * height s * 4 <= INT_MAX ->
  exists h w' i,
    ImagePool_create_rgb cs s w = Returns (h, w') /\
    ImageRef_get h w' = Returns i /\
    size_ i = s /\
    data_ i = flat_map rgba_quad cs /\
    Z.of_nat (length (data_ i)) = width s * height s * 4 /\
    (forall k : nat, (k < length cs)%nat -> nth (4 * k + 3) (data_ i) x00 = xff).
Proof.
  intros Hlen Hmax.
  rewrite ImagePool_create_rgb_delegates by lia.
  replace (Z.to_nat (width s * height s * 4) - 4 * length cs)%nat with O by lia.
  cbn [repeat]. rewrite app_nil_r, ImagePool_create_returns.
  eexists _, _, (mkImage (flat_map rgba_quad cs) s PoolRemove 1).
  split; [reflexivity |].
  split; [unfold ImageRef_get; cbn [image_]; now rewrite lookup_created |].
  cbn [size_ data_]. split; [reflexivity |]. split; [reflexivity |].
  split; [rewrite length_flat_map_rgba; lia | apply alpha_of_flat_map_rgba].
Qed.

Lemma create_rgb_expands_to_opaque_rgba_witness :
  exists h w' i,
    ImagePool_create_rgb [mkRGB x01 x02 x03; mkRGB x04 x05 x06] (mkSize 2 1) empty_world
    = Returns (h, w') /\
    ImageRef_get h w' = Returns i /\
    size_ i = mkSize 2 1 /\
    data_ i = flat_map rgba_quad [mkRGB x01 x02 x03; mkRGB x04 x05 x06] /\
    Z.of_nat (length (data_ i)) = width (mkSize 2 1) * height (mkSize 2 1) * 4 /\
    (forall k : nat, (k < length [mkRGB x01 x02 x03; mkRGB x04 x05 x06])%nat ->
                     nth (4 * k + 3) (data_ i) x00 = xff).
Proof.
  apply (create_rgb_expands_to_opaque_rgba
           [mkRGB x01 x02 x03; mkRGB x04 x05 x06] (mkSize 2 1) empty_world);
    [reflexivity | apply Z.leb_le; reflexivity].
Defined.

(** An image of 32768 x 16384 pixels has a byte count of 2^31, which is
    not an [int]: the RGB overload is undefined for it whatever the
    colours. *)
Lemma create_rgb_byte_count_overflows (cs : list RGBColor) (w : World) :
  ImagePool_create_rgb cs (mkSize 32768 16384) w = Undefined.
Proof. reflexivity. Qed.

(** C8 as stated fails: an array of [32768 * 16384] colours has the length
    the claim asks for, and the call is undefined. *)
Lemma create_rgb_of_half_gigapixel_is_undefined :
  Z.of_nat (length half_gigapixel)
  = width (mkSize 32768 16384) * height (mkSize 32768 16384) /\
  ImagePool_create_rgb half_gigapixel (mkSize 32768 16384) empty_world = Undefined.
Proof.
  split; [| apply create_rgb_byte_count_overflows].
  unfold half_gigapixel. rewrite repeat_length.
  apply Z2Nat.id. discriminate.
Qed.

(** * Further properties of the pool and of handles *)

(** ** Removing images *)

Lemma bind_returns {A B : Type} (c : outcome A) (k : A -> outcome B) (y : B) :
  bind c k = Returns y -> exists x, c = Returns x /\ k x = Returns y.
Proof. destruct c; simpl; intros H; try discriminate. eauto. Qed.

Lemma with_images_same (w : World) : with_images w (images_ (pool w)) = w.
Proof. destruct w as [[l r] t]. reflexivity. Qed.

Lemma store_image_same (a : addr) (i : Image) (l : list (addr * Image)) :
  find_image a l = Some i -> store_image a i l = l.
Proof.
  induction l as [| [b j] l IH]; simpl; [reflexivity |].
  destruct (Nat.eqb_spec a b) as [-> | Hne].
  - intros H. injection H as ->. reflexivity.
  - intros H. now rewrite IH.
Qed.

Lemma store_image_twice (a : addr) (i j : Image) (l : list (addr * Image)) :
  store_image a j (store_image a i l) = store_image a j l.
Proof.
  induction l as [| [b k] l IH]; simpl; [reflexivity |].
  destruct (Nat.eqb a b) eqn:E; simpl; rewrite E; [reflexivity | now rewrite IH].
Qed.

Lemma erase_store (a : addr) (j : Image) (l : list (addr * Image)) :
  erase_image a (store_image a j l) = erase_image a l.
Proof.
  induction l as [| [b k] l IH]; simpl; [reflexivity |].
  destruct (Nat.eqb a b) eqn:E; simpl; rewrite E; [reflexivity | now rewrite IH].
Qed.

Lemma erase_app_absent (a : addr) (i : Image) (l : list (addr * Image)) :
  find_image a l = None -> erase_image a (l ++ [(a, i)]) = l.
Proof.
  induction l as [| [b k] l IH]; simpl.
  - now rewrite Nat.eqb_refl.
  - destruct (Nat.eqb a b); [discriminate | intros H; now rewrite IH].
Qed.

Lemma erase_first_match (a : addr) (i : Image) (l1 l2 : list (addr * Image)) :
  find_image a l1 = None -> erase_image a (l1 ++ (a, i) :: l2) = l1 ++ l2.
Proof.
  induction l1 as [| [b k] l1 IH]; simpl.
  - now rewrite Nat.eqb_refl.
  - destruct (Nat.eqb a b); [discriminate | intros H; now rewrite IH].
Qed.

Lemma find_none_store (a b : addr) (j : Image) (l : list (addr * Image)) :
  find_image b l = None -> find_image b (store_image a j l) = None.
Proof.
  induction l as [| [c k] l IH]; simpl; [reflexivity |].
  destruct (Nat.eqb b c) eqn:Ebc; [discriminate |]. intros H.
  destruct (Nat.eqb a c); simpl; rewrite Ebc; auto.
Qed.

Lemma find_none_erase (a b : addr) (l : list (addr * Image)) :
  find_image b l = None -> find_image b (erase_image a l) = None.
Proof.
  induction l as [| [c k] l IH]; simpl; [reflexivity |].
  destruct (Nat.eqb b c) eqn:Ebc; [discriminate |]. intros H.
  destruct (Nat.eqb a c); simpl; [exact H | rewrite Ebc; auto].
Qed.

Lemma find_app_other (a b : addr) (i : Image) (l : list (addr * Image)) :
  b <> a -> find_image b (l ++ [(a, i)]) = find_image b l.
Proof.
  intros Hne. induction l as [| [c k] l IH]; simpl.
  - apply Nat.eqb_neq in Hne. now rewrite Hne.
  - now rewrite IH.
Qed.

Lemma distinct_store (a : addr) (j : Image) (l : list (addr * Image)) :
  distinct_addrs l = true -> distinct_addrs (store_image a j l) = true.
Proof.
  induction l as [| [c k] l IH]; simpl; [reflexivity |].
  destruct (find_image c l) eqn:Ec; [discriminate |]. intros H.
  destruct (Nat.eqb a c); simpl.
  - now rewrite Ec.
  - rewrite find_none_store by exact Ec. auto.
Qed.

Lemma distinct_erase (a : addr) (l : list (addr * Image)) :
  distinct_addrs l = true -> distinct_addrs (erase_image a l) = true.
Proof.
  induction l as [| [c k] l IH]; simpl; [reflexivity |].
  destruct (find_image c l) eqn:Ec; [discriminate |]. intros H.
  destruct (Nat.eqb a c); simpl; [exact H |].
  rewrite find_none_erase by exact Ec. auto.
Qed.

Lemma distinct_app (a : addr) (i : Image) (l : list (addr * Image)) :
  distinct_addrs l = true -> find_image a l = None ->
  distinct_addrs (l ++ [(a, i)]) = true.
Proof.
  induction l as [| [c k] l IH]; simpl; [reflexivity |].
  destruct (find_image c l) eqn:Ec; [discriminate |]. intros H Ha.
  destruct (Nat.eqb_spec a c) as [-> | Hne]; [discriminate |].
  rewrite find_app_other by congruence. rewrite Ec. auto.
Qed.

(** With distinct addresses, an erased image cannot be found again. *)
Lemma find_erase_same (a : addr) (l : list (addr * Image)) :
  distinct_addrs l = true -> find_image a (erase_image a l) = None.
Proof.
  induction l as [| [c k] l IH]; simpl; [reflexivity |].
  destruct (find_image c l) eqn:Ec; [discriminate |]. intros H.
  destruct (Nat.eqb_spec a c) as [-> | Hne]; [exact Ec |].
  simpl. apply Nat.eqb_neq in Hne. rewrite Hne. auto.
Qed.

(** [ImagePool::remove] of an image the pool does not hold leaves the pool
    as it is. *)
Theorem remove_absent_changes_nothing (a : addr) (w : World) :
  lookup a w = None -> ImagePool_remove a w = w.
Proof.
  intros H. unfold ImagePool_remove. rewrite erase_absent by exact H.
  apply with_images_same.
Qed.

Lemma remove_absent_changes_nothing_witness :
  ImagePool_remove 7%nat (one_image_world 1%nat red_over_blue)
  = one_image_world 1%nat red_over_blue.
Proof.
  apply (remove_absent_changes_nothing 7%nat (one_image_world 1%nat red_over_blue)).
  reflexivity.
Defined.

(** [ImagePool::remove] erases the first node at the address and nothing
    else: the images before it and after it stay, in their order, every
    image at another address is found as before, and [imageCount()] is
    lower by one. *)
Theorem remove_erases_one_image
  (a : addr) (i : Image) (l1 l2 : list (addr * Image)) (w : World) :
  images_ (pool w) = l1 ++ (a, i) :: l2 ->
  find_image a l1 = None ->
  images_ (pool (ImagePool_remove a w)) = l1 ++ l2 /\
  imageCount (pool (ImagePool_remove a w)) = imageCount (pool w) - 1 /\
  (forall b, b <> a -> lookup b (ImagePool_remove a w) = lookup b w) /\
  teardowns (ImagePool_remove a w) = teardowns w.
Proof.
  intros Hl Hfirst.
  assert (E : images_ (pool (ImagePool_remove a w)) = l1 ++ l2).
  { unfold ImagePool_remove; simpl. rewrite Hl. now apply erase_first_match. }
  split; [exact E |]. split; [| split; [| reflexivity]].
  - unfold imageCount. rewrite E, Hl, !length_app. simpl. lia.
  - intros b Hb. now apply lookup_remove_other.
Qed.

Lemma remove_erases_one_image_witness :
  images_ (pool (ImagePool_remove 1%nat two_image_world))
  = [] ++ [(2%nat, mkImage [] (mkSize 0 0) PoolRemove 1)] /\
  imageCount (pool (ImagePool_remove 1%nat two_image_world))
  = imageCount (pool two_image_world) - 1 /\
  (forall b, b <> 1%nat ->
     lookup b (ImagePool_remove 1%nat two_image_world) = lookup b two_image_world) /\
  teardowns (ImagePool_remove 1%nat two_image_world) = teardowns two_image_world.
Proof.
  apply (remove_erases_one_image 1%nat (mkImage [] (mkSize 0 0) PoolRemove 2)
           [] [(2%nat, mkImage [] (mkSize 0 0) PoolRemove 1)] two_image_world);
    reflexivity.
Defined.

(** In a pool whose nodes have distinct addresses, a removed image is gone
    and removing it again changes nothing. *)
Theorem remove_twice_is_remove_once (a : addr) (w : World) :
  distinct_addrs (images_ (pool w)) = true ->
  lookup a (ImagePool_remove a w) = None /\
  ImagePool_remove a (ImagePool_remove a w) = ImagePool_remove a w.
Proof.
  intros Hd.
  assert (H : lookup a (ImagePool_remove a w) = None)
    by (unfold lookup, ImagePool_remove; simpl; now apply find_erase_same).
  split; [exact H |].
  unfold ImagePool_remove at 1. rewrite erase_absent by exact H.
  apply with_images_same.
Qed.

Lemma remove_twice_is_remove_once_witness :
  lookup 1%nat (ImagePool_remove 1%nat two_image_world) = None /\
  ImagePool_remove 1%nat (ImagePool_remove 1%nat two_image_world)
  = ImagePool_remove 1%nat two_image_world.
Proof.
  apply (remove_twice_is_remove_once 1%nat two_image_world). reflexivity.
Defined.

(** ** What every reachable pool satisfies *)

Lemma pool_image_snd (a b : addr) (i : Image) : pool_image (a, i) = pool_image (b, i).
Proof. reflexivity. Qed.

Lemma forallb_store (a : addr) (j : Image) (l : list (addr * Image)) :
  forallb pool_image l = true -> pool_image (a, j) = true ->
  forallb pool_image (store_image a j l) = true.
Proof.
  intros Hl Hj. induction l as [| [c k] l IH]; simpl in *; [reflexivity |].
  apply andb_true_iff in Hl as [Hk Hl].
  destruct (Nat.eqb a c); simpl; apply andb_true_iff; split; auto.
Qed.

Lemma forallb_erase (a : addr) (l : list (addr * Image)) :
  forallb pool_image l = true -> forallb pool_image (erase_image a l) = true.
Proof.
  induction l as [| [c k] l IH]; simpl; [reflexivity |]. intros Hl.
  apply andb_true_iff in Hl as [Hk Hl].
  destruct (Nat.eqb a c); simpl; [exact Hl |]. apply andb_true_iff; auto.
Qed.

Lemma forallb_find (a : addr) (i : Image) (l : list (addr * Image)) :
  forallb pool_image l = true -> find_image a l = Some i -> pool_image (a, i) = true.
Proof.
  induction l as [| [c k] l IH]; simpl; [discriminate |]. intros Hl.
  apply andb_true_iff in Hl as [Hk Hl].
  destruct (Nat.eqb a c); [intros H; injection H as <-; exact Hk | auto].
Qed.

Lemma pool_image_bounds (a : addr) (i : Image) :
  pool_image (a, i) = true <-> 1 <= refCount_ i /\ deleter_ i = PoolRemove.
Proof.
  unfold pool_image; simpl. rewrite andb_true_iff, Z.leb_le.
  destruct (deleter_ i); intuition congruence.
Qed.

Lemma int_result_returns (z c : Z) : int_result z = Returns c -> c = z.
Proof. unfold int_result. destruct (in_int z); congruence. Qed.

Lemma consistent_write (a : addr) (i : Image) (c : Z) (w : World) :
  pool_consistent w = true -> lookup a w = Some i -> 1 <= c ->
  pool_consistent (write_refCount a i c w) = true.
Proof.
  unfold pool_consistent, write_refCount, lookup; simpl.
  intros H Hlive Hc. apply andb_true_iff in H as [Hd Hf].
  apply andb_true_iff; split; [now apply distinct_store |].
  apply forallb_store; [exact Hf |].
  pose proof (forallb_find a i _ Hf Hlive) as Hi.
  apply pool_image_bounds in Hi. apply pool_image_bounds. simpl. tauto.
Qed.

Lemma consistent_remove (a : addr) (w : World) :
  pool_consistent w = true -> pool_consistent (ImagePool_remove a w) = true.
Proof.
  unfold pool_consistent, ImagePool_remove; simpl. intros H.
  apply andb_true_iff in H as [Hd Hf].
  apply andb_true_iff; split; [now apply distinct_erase | now apply forallb_erase].
Qed.

Lemma consistent_ref (a : addr) (w w' : World) :
  pool_consistent w = true -> Image_ref a w = Returns w' -> pool_consistent w' = true.
Proof.
  intros Hc. unfold Image_ref. destruct (lookup a w) as [i |] eqn:Hlive; [| discriminate].
  intros H. apply bind_returns in H as (c & Hi & H). injection H as <-.
  apply int_result_returns in Hi. subst c.
  apply consistent_write; auto.
  unfold pool_consistent in Hc. apply andb_true_iff in Hc as [_ Hf].
  pose proof (forallb_find a i _ Hf Hlive) as Hb. apply pool_image_bounds in Hb. lia.
Qed.

Lemma consistent_unref (a : addr) (w w' : World) :
  pool_consistent w = true -> Image_unref a w = Returns w' -> pool_consistent w' = true.
Proof.
  intros Hc. unfold Image_unref. destruct (lookup a w) as [i |] eqn:Hlive; [| discriminate].
  intros H. apply bind_returns in H as (c & Hi & H).
  apply int_result_returns in Hi. subst c.
  assert (Hb : 1 <= refCount_ i /\ deleter_ i = PoolRemove).
  { unfold pool_consistent in Hc. apply andb_true_iff in Hc as [_ Hf].
    apply (pool_image_bounds a). exact (forallb_find a i _ Hf Hlive). }
  destruct Hb as [Hone Hdel]. cbv zeta in H.
  destruct (Z.eqb_spec (refCount_ i - 1) 0) as [E | Hne].
  - rewrite Hdel in H. simpl in H. injection H as <-.
    unfold pool_consistent, ImagePool_remove, write_refCount; simpl.
    rewrite erase_store.
    unfold pool_consistent in Hc. apply andb_true_iff in Hc as [Hd Hf].
    apply andb_true_iff; split; [now apply distinct_erase | now apply forallb_erase].
  - injection H as <-. apply consistent_write; auto. lia.
Qed.

Lemma consistent_create (d : list byte) (s : Size) (w w' : World) (h : ImageRef) :
  pool_consistent w = true -> ImagePool_create d s w = Returns (h, w') ->
  pool_consistent w' = true.
Proof.
  intros Hc. rewrite ImagePool_create_returns. intros H. injection H as _ <-.
  unfold pool_consistent in *; simpl. apply andb_true_iff in Hc as [Hd Hf].
  apply andb_true_iff; split.
  - apply distinct_app; [exact Hd | apply find_fresh].
  - rewrite forallb_app, Hf. reflexivity.
Qed.

(** Every call keeps the pool consistent: the addresses of its images stay
    distinct, every image stays counted at least once, and its deleter is
    the closure over [remove]. *)
Lemma pool_step_consistent (c : pool_call) (w w' : World) :
  pool_consistent w = true -> pool_step w c = Returns w' -> pool_consistent w' = true.
Proof.
  intros Hc. destruct c as [d s | cs s | a | h | h | h v | h v | r pos]; simpl.
  - intros H. apply bind_returns in H as ([h0 w0] & H & E). injection E as <-.
    eapply consistent_create; eauto.
  - intros H. apply bind_returns in H as ([h0 w0] & H & E). injection E as <-.
    unfold ImagePool_create_rgb in H.
    apply bind_returns in H as (n & _ & H). apply bind_returns in H as (n4 & _ & H).
    apply bind_returns in H as (len & _ & H). apply bind_returns in H as (d & _ & H).
    eapply consistent_create; eauto.
  - intros H. injection H as <-. now apply consistent_remove.
  - intros H. apply bind_returns in H as ([h0 w0] & H & E). injection E as <-.
    unfold ImageRef_copy in H. destruct (image_ h) as [a |]; [| discriminate].
    apply bind_returns in H as (w1 & H & E). injection E as _ <-.
    eapply consistent_ref; eauto.
  - unfold ImageRef_destroy. intros H. apply (proj1 (noexcept_returns _ _)) in H.
    destruct (image_ h) as [a |]; [| now injection H as <-].
    eapply consistent_unref; eauto.
  - intros H. apply bind_returns in H as ([h0 w0] & H & E). injection E as <-.
    unfold ImageRef_assign in H. destruct v as [| v]; [now injection H as _ <- |].
    destruct (image_ h) as [a |]; [| discriminate].
    apply bind_returns in H as (w1 & H1 & H).
    destruct (image_ v) as [b |]; [| discriminate].
    apply bind_returns in H as (w2 & H2 & E). injection E as _ <-.
    eapply consistent_ref; [| exact H2]. eapply consistent_unref; eauto.
  - intros H. apply bind_returns in H as ([[h0 v0] w0] & H & E). injection E as <-.
    unfold ImageRef_move_assign in H. destruct v; now injection H as _ _ <-.
  - intros H. apply bind_returns in H as ([f w0] & H & E). injection E as <-.
    unfold RasterizedImage_fragment in H.
    apply bind_returns in H as (i & _ & H). apply bind_returns in H as (u & _ & H).
    apply bind_returns in H as (pr & _ & H). apply bind_returns in H as (pc & _ & H).
    destruct (image_ (image r)) as [a |]; [| discriminate].
    unfold ImageFragment_new, ImageRef_new in H.
    apply bind_returns in H as ([h0 w1] & H & E). injection E as _ <-.
    apply bind_returns in H as (w2 & H & E). injection E as _ <-.
    eapply consistent_ref; eauto.
Qed.

(** Whatever a client calls, in whatever order and on whatever handles, a
    pool that started empty has images at distinct addresses, each counted
    at least once and each wired to [remove]; an image whose count is 0 is
    never left in the pool. *)
Theorem reachable_pool_is_consistent (calls : list pool_call) (w : World) :
  pool_run empty_world calls = Returns w ->
  distinct_addrs (images_ (pool w)) = true /\
  (forall a i, lookup a w = Some i -> 1 <= refCount_ i /\ deleter_ i = PoolRemove).
Proof.
  assert (H : forall w0, pool_consistent w0 = true ->
                         pool_run w0 calls = Returns w -> pool_consistent w = true).
  { induction calls as [| c calls IH]; intros w0 H0; simpl.
    - intros E. now injection E as <-.
    - intros E. apply bind_returns in E as (w1 & Hs & E).
      apply (IH w1); [eapply pool_step_consistent; eauto | exact E]. }
  intros Hrun. specialize (H empty_world eq_refl Hrun).
  unfold pool_consistent in H. apply andb_true_iff in H as [Hd Hf].
  split; [exact Hd |]. intros a i Hlive.
  apply (pool_image_bounds a). exact (forallb_find a i _ Hf Hlive).
Qed.

Lemma reachable_pool_is_consistent_witness :
  distinct_addrs
    (images_ (pool (mkWorld
                      (mkImagePool
                         [(2%nat, mkImage [x00; x00; x00; x00] (mkSize 1 1) PoolRemove 2)] [])
                      [1%nat])))
  = true /\
  (forall a i,
     lookup a (mkWorld
                 (mkImagePool
                    [(2%nat, mkImage [x00; x00; x00; x00] (mkSize 1 1) PoolRemove 2)] [])
                 [1%nat]) = Some i ->
     1 <= refCount_ i /\ deleter_ i = PoolRemove).
Proof.
  apply (reachable_pool_is_consistent
           [DoCreate [] (mkSize 0 0); DoCreateRGB [] (mkSize 1 1);
            DoCopy (mkImageRef (Some 2%nat)); DoDestroy (mkImageRef (Some 1%nat))]).
  reflexivity.
Defined.

(** ** How handle operations compose *)

Lemma write_refCount_twice (a : addr) (i : Image) (c d : Z) (w : World) :
  write_refCount a (set_refCount i c) d (write_refCount a i c w)
  = write_refCount a i d w.
Proof.
  unfold write_refCount, with_images; simpl.
  now rewrite store_image_twice, set_refCount_twice.
Qed.

Lemma write_refCount_same (a : addr) (i : Image) (w : World) :
  lookup a w = Some i -> write_refCount a i (refCount_ i) w = w.
Proof.
  intros H. unfold write_refCount. rewrite set_refCount_same.
  rewrite store_image_same by exact H. apply with_images_same.
Qed.

Lemma pool_eta (p : ImagePool) : mkImagePool (images_ p) (instances_ p) = p.
Proof. now destruct p. Qed.

(** The world after the last handle of the image at [a] is destroyed. *)
Lemma Image_unref_removes (a : addr) (w : World) (i : Image) :
  lookup a w = Some i -> refCount_ i = 1 -> deleter_ i = PoolRemove ->
  Image_unref a w =
  Returns (mkWorld (mkImagePool (erase_image a (images_ (pool w))) (instances_ (pool w)))
                   (a :: teardowns w)).
Proof.
  intros Hlive Hone Hdel.
  rewrite (Image_unref_last a w i Hlive Hone), Hdel.
  unfold invoke_deleter, ImagePool_remove, write_refCount, with_images; simpl.
  now rewrite erase_store.
Qed.

(** Creating an image and destroying the handle that [create] returned
    gives the pool back as it was; the deleter has run once. *)
Theorem create_then_destroy_restores_the_pool
  (d : list byte) (s : Size) (w w1 : World) (h : ImageRef) :
  ImagePool_create d s w = Returns (h, w1) ->
  exists a,
    image_ h = Some a /\
    ImageRef_destroy h w1 = Returns (mkWorld (pool w) (a :: teardowns w)).
Proof.
  rewrite ImagePool_create_returns. intros H. injection H as <- <-.
  exists (fresh_addr (images_ (pool w))). split; [reflexivity |].
  unfold ImageRef_destroy. cbn [image_].
  rewrite (Image_unref_removes _ _ _ (lookup_created d s w) eq_refl eq_refl).
  cbn [noexcept with_images pool images_ instances_ teardowns].
  rewrite erase_app_absent by apply find_fresh.
  now rewrite pool_eta.
Qed.

Lemma create_then_destroy_restores_the_pool_witness :
  exists a,
    image_ (mkImageRef (Some 1%nat)) = Some a /\
    ImageRef_destroy (mkImageRef (Some 1%nat))
      (one_image_world 1%nat (mkImage [] (mkSize 0 0) PoolRemove 1))
    = Returns (mkWorld (pool empty_world) (a :: teardowns empty_world)).
Proof.
  apply (create_then_destroy_restores_the_pool [] (mkSize 0 0) empty_world).
  reflexivity.
Defined.

(** Copying a handle and destroying the copy leaves everything as it was:
    the copy raises the count by one and its destruction takes that one
    back. *)
Theorem copy_then_destroy_changes_nothing
  (h : ImageRef) (w : World) (a : addr) (i : Image) :
  image_ h = Some a ->
  lookup a w = Some i ->
  1 <= refCount_ i < INT_MAX ->
  exists h' w1,
    ImageRef_copy h w = Returns (h', w1) /\
    image_ h' = Some a /\
    refCount_at a w1 = Some (refCount_ i + 1) /\
    imageCount (pool w1) = imageCount (pool w) /\
    ImageRef_destroy h' w1 = Returns w.
Proof.
  intros Hh Hlive Hc.
  assert (Hr : INT_MIN <= refCount_ i + 1 <= INT_MAX) by (unfold INT_MIN; lia).
  pose proof (lookup_write a w i Hlive (refCount_ i + 1)) as Hlive1.
  exists (mkImageRef (Some a)), (write_refCount a i (refCount_ i + 1) w).
  split; [| split; [reflexivity | split; [| split]]].
  - unfold ImageRef_copy. rewrite Hh, (Image_ref_returns a w i Hlive Hr). reflexivity.
  - unfold refCount_at. now rewrite Hlive1.
  - apply imageCount_write.
  - unfold ImageRef_destroy. cbn [image_].
    rewrite (Image_unref_returns a _ _ Hlive1)
      by (cbn [set_refCount refCount_]; unfold INT_MIN in *; lia).
    cbn [set_refCount refCount_ noexcept].
    change (mkImage (data_ i) (size_ i) (deleter_ i) (refCount_ i + 1))
      with (set_refCount i (refCount_ i + 1)).
    rewrite write_refCount_twice.
    replace (refCount_ i + 1 - 1) with (refCount_ i) by lia.
    now rewrite write_refCount_same.
Qed.

Lemma copy_then_destroy_changes_nothing_witness :
  exists h' w1,
    ImageRef_copy (mkImageRef (Some 1%nat)) two_image_world = Returns (h', w1) /\
    image_ h' = Some 1%nat /\
    refCount_at 1%nat w1 = Some (refCount_ (mkImage [] (mkSize 0 0) PoolRemove 2) + 1) /\
    imageCount (pool w1) = imageCount (pool two_image_world) /\
    ImageRef_destroy h' w1 = Returns two_image_world.
Proof.
  apply (copy_then_destroy_changes_nothing (mkImageRef (Some 1%nat)) two_image_world 1%nat
           (mkImage [] (mkSize 0 0) PoolRemove 2));
    [reflexivity | reflexivity | split; [apply Z.leb_le | apply Z.ltb_lt]; reflexivity].
Defined.

(** [create] leaves the images the pool already holds as they are, and the
    handle it returns refers to none of them. *)
Theorem create_keeps_existing_images
  (d : list byte) (s : Size) (w w1 : World) (h : ImageRef) (b : addr) (j : Image) :
  ImagePool_create d s w = Returns (h, w1) ->
  lookup b w = Some j ->
  lookup b w1 = Some j /\ image_ h <> Some b.
Proof.
  rewrite ImagePool_create_returns. intros H Hb. injection H as <- <-.
  assert (Hne : b <> fresh_addr (images_ (pool w))).
  { intros ->. unfold lookup in Hb. rewrite find_fresh in Hb. discriminate. }
  split.
  - unfold lookup; simpl. rewrite find_app_other by exact Hne. exact Hb.
  - simpl. congruence.
Qed.

Lemma create_keeps_existing_images_witness :
  lookup 1%nat
    (with_images (one_image_world 1%nat red_over_blue)
       [(1%nat, red_over_blue); (2%nat, mkImage [] (mkSize 0 0) PoolRemove 1)])
  = Some red_over_blue /\
  image_ (mkImageRef (Some 2%nat)) <> Some 1%nat.
Proof.
  apply (create_keeps_existing_images [] (mkSize 0 0)
           (one_image_world 1%nat red_over_blue)); reflexivity.
Defined.

(** [ref()] and [unref()] on one image leave every other image as it is,
    also when the [unref()] removes its image from the pool. *)
Theorem counting_touches_one_image (a b : addr) (w w' : World) :
  a <> b ->
  Image_ref b w = Returns w' \/ Image_unref b w = Returns w' ->
  lookup a w' = lookup a w.
Proof.
  intros Hab [H | H]; [| now apply (Image_unref_other a b w w')].
  unfold Image_ref in H. destruct (lookup b w) as [j |] eqn:Hb; [| discriminate].
  apply bind_returns in H as (c & _ & H). injection H as <-.
  now apply (lookup_write_other b w j a c).
Qed.

Lemma counting_touches_one_image_witness :
  lookup 1%nat (mkWorld (mkImagePool [(1%nat, mkImage [] (mkSize 0 0) PoolRemove 2)] [])
                        [2%nat])
  = lookup 1%nat two_image_world.
Proof.
  apply (counting_touches_one_image 1%nat 2%nat two_image_world);
    [discriminate | right; reflexivity].
Defined.

(** Handles compare by the identity of the image, not by its content: two
    images created from the same buffer and size have handles that are
    unequal, each handle equals itself, and both images hold the same
    data. *)
Theorem handles_compare_by_identity
  (d : list byte) (s : Size) (w w1 w2 : World) (h1 h2 : ImageRef) :
  ImagePool_create d s w = Returns (h1, w1) ->
  ImagePool_create d s w1 = Returns (h2, w2) ->
  ImageRef_eqb h1 h2 = Returns false /\
  ImageRef_neqb h1 h2 = Returns true /\
  ImageRef_eqb h1 h1 = Returns true /\
  ImageRef_eqb h2 h1 = Returns false /\
  ImageRef_get h1 w2 = Returns (mkImage d s PoolRemove 1) /\
  ImageRef_get h2 w2 = Returns (mkImage d s PoolRemove 1).
Proof.
  intros H1 H2.
  rewrite ImagePool_create_returns in H1. injection H1 as <- <-.
  rewrite ImagePool_create_returns in H2. injection H2 as <- <-.
  set (a1 := fresh_addr (images_ (pool w))).
  set (l1 := images_ (pool w) ++ [(a1, mkImage d s PoolRemove 1)]).
  cbn [with_images pool images_]. fold l1.
  set (a2 := fresh_addr l1).
  assert (H1 : find_image a1 l1 = Some (mkImage d s PoolRemove 1))
    by (apply find_app_absent, find_fresh).
  assert (Hne : a1 <> a2).
  { intros E. pose proof (find_fresh l1) as Hf. fold a2 in Hf. congruence. }
  assert (E12 : Nat.eqb a1 a2 = false) by now apply Nat.eqb_neq.
  assert (E21 : Nat.eqb a2 a1 = false) by (apply Nat.eqb_neq; congruence).
  unfold ImageRef_neqb, ImageRef_eqb, ImageRef_get, lookup.
  cbn [image_ bind with_images pool images_].
  rewrite E12, E21, Nat.eqb_refl.
  rewrite find_app_other by exact Hne. rewrite H1.
  rewrite find_app_absent by apply find_fresh.
  repeat split.
Qed.

Lemma handles_compare_by_identity_witness :
  ImageRef_eqb (mkImageRef (Some 1%nat)) (mkImageRef (Some 2%nat)) = Returns false /\
  ImageRef_neqb (mkImageRef (Some 1%nat)) (mkImageRef (Some 2%nat)) = Returns true /\
  ImageRef_eqb (mkImageRef (Some 1%nat)) (mkImageRef (Some 1%nat)) = Returns true /\
  ImageRef_eqb (mkImageRef (Some 2%nat)) (mkImageRef (Some 1%nat)) = Returns false /\
  ImageRef_get (mkImageRef (Some 1%nat))
    (with_images empty_world
       [(1%nat, mkImage [] (mkSize 0 0) PoolRemove 1);
        (2%nat, mkImage [] (mkSize 0 0) PoolRemove 1)])
  = Returns (mkImage [] (mkSize 0 0) PoolRemove 1) /\
  ImageRef_get (mkImageRef (Some 2%nat))
    (with_images empty_world
       [(1%nat, mkImage [] (mkSize 0 0) PoolRemove 1);
        (2%nat, mkImage [] (mkSize 0 0) PoolRemove 1)])
  = Returns (mkImage [] (mkSize 0 0) PoolRemove 1).
Proof.
  apply (handles_compare_by_identity [] (mkSize 0 0) empty_world
           (one_image_world 1%nat (mkImage [] (mkSize 0 0) PoolRemove 1)));
    reflexivity.
Defined.

(** A fragment counts as one handle: [fragment()] raises the count of the
    image by one and leaves the pool otherwise as it is; destroying the
    fragment takes that one back. *)
Theorem fragment_then_destroy_changes_nothing
  (r : RasterizedImage) (pos : Coordinate) (w : World) (a : addr) (i : Image) :
  image_ (image r) = Some a ->
  lookup a w = Some i ->
  0 < width (cellSpan r) ->
  INT_MIN <= Image_width i <= INT_MAX ->
  INT_MIN <= row pos * Image_width i <= INT_MAX ->
  INT_MIN <= column pos * Z.quot (Image_width i) (width (cellSpan r)) <= INT_MAX ->
  1 <= refCount_ i < INT_MAX ->
  exists f w1,
    RasterizedImage_fragment r pos w = Returns (f, w1) /\
    refCount_at a w1 = Some (refCount_ i + 1) /\
    imageCount (pool w1) = imageCount (pool w) /\
    ImageFragment_image f w1 = Returns (set_refCount i (refCount_ i + 1)) /\
    ImageFragment_destroy f w1 = Returns w.
Proof.
  intros Hptr Hlive Hw Hiw Hrow Hcol Hc.
  assert (Hr : INT_MIN <= refCount_ i + 1 <= INT_MAX) by (unfold INT_MIN; lia).
  pose proof (lookup_write a w i Hlive (refCount_ i + 1)) as Hlive1.
  eexists _, (write_refCount a i (refCount_ i + 1) w).
  split; [| split; [| split; [| split]]].
  - unfold RasterizedImage_fragment, ImageRef_get. rewrite Hptr, Hlive. cbn [bind].
    rewrite int_div_ok by (try apply quot_pos_in_int; lia). cbn [bind].
    rewrite int_mul_ok by exact Hrow. cbn [bind].
    rewrite int_mul_ok by exact Hcol. cbn [bind].
    unfold ImageFragment_new, ImageRef_new.
    rewrite (Image_ref_returns a w i Hlive Hr). reflexivity.
  - unfold refCount_at. now rewrite Hlive1.
  - apply imageCount_write.
  - unfold ImageFragment_image, ImageRef_get. cbn [fst frag_image_ image_].
    now rewrite Hlive1.
  - unfold ImageFragment_destroy, ImageRef_destroy. cbn [fst frag_image_ image_].
    rewrite (Image_unref_returns a _ _ Hlive1)
      by (cbn [set_refCount refCount_]; unfold INT_MIN in *; lia).
    cbn [set_refCount refCount_ noexcept].
    change (mkImage (data_ i) (size_ i) (deleter_ i) (refCount_ i + 1))
      with (set_refCount i (refCount_ i + 1)).
    rewrite write_refCount_twice.
    replace (refCount_ i + 1 - 1) with (refCount_ i) by lia.
    now rewrite write_refCount_same.
Qed.

Lemma fragment_then_destroy_changes_nothing_witness :
  exists f w1,
    RasterizedImage_fragment (rasterized 1%nat (mkSize 1 2)) (mkCoordinate 1 0)
      (one_image_world 1%nat red_over_blue) = Returns (f, w1) /\
    refCount_at 1%nat w1 = Some (refCount_ red_over_blue + 1) /\
    imageCount (pool w1) = imageCount (pool (one_image_world 1%nat red_over_blue)) /\
    ImageFragment_image f w1
    = Returns (set_refCount red_over_blue (refCount_ red_over_blue + 1)) /\
    ImageFragment_destroy f w1 = Returns (one_image_world 1%nat red_over_blue).
Proof.
  apply (fragment_then_destroy_changes_nothing (rasterized 1%nat (mkSize 1 2))
           (mkCoordinate 1 0) (one_image_world 1%nat red_over_blue) 1%nat red_over_blue);
    try reflexivity; try (apply in_int_bounds; reflexivity).
  split; [apply Z.leb_le | apply Z.ltb_lt]; reflexivity.
Defined.

(** Copying a fragment (the defaulted copy constructor) copies its handle:
    the count goes up by one, offset and size are those of the original. *)
Theorem fragment_copy_counts (f : ImageFragment) (w : World) (a : addr) (i : Image) :
  image_ (frag_image_ f) = Some a ->
  lookup a w = Some i ->
  INT_MIN <= refCount_ i + 1 <= INT_MAX ->
  exists f' w1,
    ImageFragment_copy f w = Returns (f', w1) /\
    frag_image_ f' = frag_image_ f /\
    offset_ f' = offset_ f /\ frag_size_ f' = frag_size_ f /\
    refCount_at a w1 = Some (refCount_ i + 1) /\
    ImageFragment_data f' w1 = ImageFragment_data f w.
Proof.
  intros Hptr Hlive Hr.
  pose proof (lookup_write a w i Hlive (refCount_ i + 1)) as Hlive1.
  eexists _, (write_refCount a i (refCount_ i + 1) w).
  split; [| split; [| split; [| split; [| split]]]].
  - unfold ImageFragment_copy, ImageRef_copy.
    rewrite Hptr, (Image_ref_returns a w i Hlive Hr). reflexivity.
  - cbn [fst frag_image_]. destruct f as [[p] o sz]. simpl in *. now subst p.
  - reflexivity.
  - reflexivity.
  - unfold refCount_at. now rewrite Hlive1.
  - unfold ImageFragment_data, ImageRef_get. cbn [fst frag_image_ frag_size_ image_].
    now rewrite Hptr, Hlive, Hlive1.
Qed.

Lemma fragment_copy_counts_witness :
  exists f' w1,
    ImageFragment_copy (second_row_fragment 1%nat) (one_image_world 1%nat red_over_blue)
    = Returns (f', w1) /\
    frag_image_ f' = frag_image_ (second_row_fragment 1%nat) /\
    offset_ f' = offset_ (second_row_fragment 1%nat) /\
    frag_size_ f' = frag_size_ (second_row_fragment 1%nat) /\
    refCount_at 1%nat w1 = Some (refCount_ red_over_blue + 1) /\
    ImageFragment_data f' w1
    = ImageFragment_data (second_row_fragment 1%nat) (one_image_world 1%nat red_over_blue).
Proof.
  apply (fragment_copy_counts (second_row_fragment 1%nat)
           (one_image_world 1%nat red_over_blue) 1%nat red_over_blue);
    try reflexivity; apply in_int_bounds; reflexivity.
Defined.

(** ** Handles after the image is gone *)

(** In a pool with distinct addresses, destroying the last handle of an
    image removes the image; whatever is then done with a handle that still
    points at it (reading, copying, destroying it again) dereferences a
    dangling pointer and is undefined. *)
Theorem last_destroy_leaves_dangling_handles
  (h : ImageRef) (w : World) (a : addr) (i : Image) :
  distinct_addrs (images_ (pool w)) = true ->
  image_ h = Some a ->
  lookup a w = Some i ->
  refCount_ i = 1 ->
  deleter_ i = PoolRemove ->
  exists w',
    ImageRef_destroy h w = Returns w' /\
    lookup a w' = None /\
    imageCount (pool w') = imageCount (pool w) - 1 /\
    ImageRef_get h w' = Undefined /\
    ImageRef_copy h w' = Undefined /\
    ImageRef_destroy h w' = Undefined.
Proof.
  intros Hd Hh Hlive Hone Hdel.
  eexists. split.
  { unfold ImageRef_destroy. rewrite Hh, (Image_unref_removes a w i Hlive Hone Hdel).
    reflexivity. }
  assert (Hgone : find_image a (erase_image a (images_ (pool w))) = None)
    by now apply find_erase_same.
  split; [exact Hgone |]. split.
  { unfold imageCount; cbn [pool images_].
    assert (Hp : find_image a (images_ (pool w)) <> None)
      by (unfold lookup in Hlive; congruence).
    apply length_erase_present in Hp. lia. }
  unfold ImageRef_get, ImageRef_copy, ImageRef_destroy, Image_ref, Image_unref, lookup.
  rewrite Hh. cbn [pool images_]. rewrite Hgone. repeat split.
Qed.

Lemma last_destroy_leaves_dangling_handles_witness :
  exists w',
    ImageRef_destroy (mkImageRef (Some 2%nat)) two_image_world = Returns w' /\
    lookup 2%nat w' = None /\
    imageCount (pool w') = imageCount (pool two_image_world) - 1 /\
    ImageRef_get (mkImageRef (Some 2%nat)) w' = Undefined /\
    ImageRef_copy (mkImageRef (Some 2%nat)) w' = Undefined /\
    ImageRef_destroy (mkImageRef (Some 2%nat)) w' = Undefined.
Proof.
  apply (last_destroy_leaves_dangling_handles (mkImageRef (Some 2%nat)) two_image_world
           2%nat (mkImage [] (mkSize 0 0) PoolRemove 1)); reflexivity.
Defined.

(** ** Assignment *)

Lemma create_facts (d : list byte) (s : Size) (w w1 : World) (h : ImageRef) :
  ImagePool_create d s w = Returns (h, w1) ->
  exists a,
    h = mkImageRef (Some a) /\
    find_image a (images_ (pool w)) = None /\
    images_ (pool w1) = images_ (pool w) ++ [(a, mkImage d s PoolRemove 1)] /\
    instances_ (pool w1) = instances_ (pool w) /\
    teardowns w1 = teardowns w.
Proof.
  rewrite ImagePool_create_returns. intros H. injection H as <- <-.
  exists (fresh_addr (images_ (pool w))).
  split; [reflexivity |]. split; [apply find_fresh |]. repeat split.
Qed.

(** The leak of move assignment, end to end: with [hA] and [hB] the only
    handles of two fresh images, after [hA = move(hB)] and the destruction
    of both handles the second image is gone and the first is still in the
    pool with count 1, although no handle is left. *)
Theorem move_assign_then_destroy_leaks
  (d1 d2 : list byte) (s1 s2 : Size) (w w1 w2 : World) (hA hB : ImageRef) :
  ImagePool_create d1 s1 w = Returns (hA, w1) ->
  ImagePool_create d2 s2 w1 = Returns (hB, w2) ->
  exists a hA' w3,
    image_ hA = Some a /\
    ImageRef_move_assign hA (Other hB) w2 = Returns (hA', Other (mkImageRef None), w2) /\
    ImageRef_destroy hA' w2 = Returns w3 /\
    ImageRef_destroy (mkImageRef None) w3 = Returns w3 /\
    lookup a w3 = Some (mkImage d1 s1 PoolRemove 1) /\
    imageCount (pool w3) = imageCount (pool w) + 1.
Proof.
  intros H1 H2.
  apply create_facts in H1 as (a & -> & Ha & Hl1 & Hi1 & Ht1).
  apply create_facts in H2 as (b & -> & Hb & Hl2 & Hi2 & Ht2).
  assert (Hlive : lookup b w2 = Some (mkImage d2 s2 PoolRemove 1))
    by (unfold lookup; rewrite Hl2; now apply find_app_absent).
  eexists a, _, _. split; [reflexivity |]. split; [reflexivity |].
  split.
  { unfold ImageRef_destroy. cbn [image_].
    rewrite (Image_unref_removes _ _ _ Hlive eq_refl eq_refl). reflexivity. }
  rewrite Hl2, erase_app_absent by exact Hb.
  split; [reflexivity |]. split.
  - unfold lookup. cbn [pool images_]. rewrite Hl1. now apply find_app_absent.
  - unfold imageCount. cbn [pool images_]. rewrite Hl1, length_app. simpl. lia.
Qed.

Lemma move_assign_then_destroy_leaks_witness :
  exists a hA' w3,
    image_ (mkImageRef (Some 1%nat)) = Some a /\
    ImageRef_move_assign (mkImageRef (Some 1%nat)) (Other (mkImageRef (Some 2%nat)))
      (with_images empty_world
         [(1%nat, mkImage [] (mkSize 0 0) PoolRemove 1);
          (2%nat, mkImage [] (mkSize 0 0) PoolRemove 1)])
    = Returns (hA', Other (mkImageRef None),
               with_images empty_world
                 [(1%nat, mkImage [] (mkSize 0 0) PoolRemove 1);
                  (2%nat, mkImage [] (mkSize 0 0) PoolRemove 1)]) /\
    ImageRef_destroy hA'
      (with_images empty_world
         [(1%nat, mkImage [] (mkSize 0 0) PoolRemove 1);
          (2%nat, mkImage [] (mkSize 0 0) PoolRemove 1)]) = Returns w3 /\
    ImageRef_destroy (mkImageRef None) w3 = Returns w3 /\
    lookup a w3 = Some (mkImage [] (mkSize 0 0) PoolRemove 1) /\
    imageCount (pool w3) = imageCount (pool empty_world) + 1.
Proof.
  apply (move_assign_then_destroy_leaks [] [] (mkSize 0 0) (mkSize 0 0) empty_world
           (one_image_world 1%nat (mkImage [] (mkSize 0 0) PoolRemove 1)));
    reflexivity.
Defined.

(** Copy assignment [h = r] when [h] is the last handle of its image and
    [r] refers to another image: the old image is removed from the pool,
    its deleter running once, the count of the other image goes up by one,
    and [h] refers to it. *)
Theorem copy_assign_releases_the_last_reference
  (h r : ImageRef) (w : World) (a b : addr) (i j : Image) :
  image_ h = Some a -> image_ r = Some b -> a <> b ->
  lookup a w = Some i -> refCount_ i = 1 -> deleter_ i = PoolRemove ->
  lookup b w = Some j -> INT_MIN <= refCount_ j + 1 <= INT_MAX ->
  exists h' w',
    ImageRef_assign h (Other r) w = Returns (h', w') /\
    image_ h' = Some b /\
    refCount_at b w' = Some (refCount_ j + 1) /\
    imageCount (pool w') = imageCount (pool w) - 1 /\
    teardowns w' = a :: teardowns w.
Proof.
  intros Hh Hr Hab Ha Hone Hdel Hb Hrange.
  set (w1 := mkWorld (mkImagePool (erase_image a (images_ (pool w))) (instances_ (pool w)))
                     (a :: teardowns w)).
  assert (Hb1 : lookup b w1 = Some j).
  { unfold lookup, w1; cbn [pool images_]. rewrite find_erase_other by congruence.
    exact Hb. }
  exists (mkImageRef (image_ r)), (write_refCount b j (refCount_ j + 1) w1).
  split; [| split; [exact Hr | split; [| split; [| reflexivity]]]].
  - unfold ImageRef_assign. rewrite Hh, (Image_unref_removes a w i Ha Hone Hdel).
    cbn [bind]. fold w1. rewrite Hr, (Image_ref_returns b w1 j Hb1 Hrange). reflexivity.
  - unfold refCount_at. now rewrite (lookup_write b w1 j Hb1).
  - rewrite (imageCount_write b w1 j). unfold imageCount, w1; cbn [pool images_].
    assert (Hp : find_image a (images_ (pool w)) <> None)
      by (unfold lookup in Ha; congruence).
    apply length_erase_present in Hp. lia.
Qed.

Lemma copy_assign_releases_the_last_reference_witness :
  exists h' w',
    ImageRef_assign (mkImageRef (Some 2%nat)) (Other (mkImageRef (Some 1%nat)))
      two_image_world = Returns (h', w') /\
    image_ h' = Some 1%nat /\
    refCount_at 1%nat w' = Some (refCount_ (mkImage [] (mkSize 0 0) PoolRemove 2) + 1) /\
    imageCount (pool w') = imageCount (pool two_image_world) - 1 /\
    teardowns w' = 2%nat :: teardowns two_image_world.
Proof.
  apply (copy_assign_releases_the_last_reference (mkImageRef (Some 2%nat))
           (mkImageRef (Some 1%nat)) two_image_world 2%nat 1%nat
           (mkImage [] (mkSize 0 0) PoolRemove 1) (mkImage [] (mkSize 0 0) PoolRemove 2));
    try reflexivity; try discriminate; apply in_int_bounds; reflexivity.
Defined.

(** Copy assignment between two handles of one image (the count being at
    least 2) decrements and increments the same count: nothing changes.
    Assigning a handle to itself does nothing either. *)
Theorem copy_assign_within_one_image
  (h r : ImageRef) (w : World) (a : addr) (i : Image) :
  image_ h = Some a -> image_ r = Some a ->
  lookup a w = Some i -> 2 <= refCount_ i <= INT_MAX ->
  ImageRef_assign h (Other r) w = Returns (h, w) /\
  ImageRef_assign h Self w = Returns (h, w).
Proof.
  intros Hh Hr Hlive Hc. split; [| reflexivity].
  pose proof (lookup_write a w i Hlive (refCount_ i - 1)) as Hlive1.
  unfold ImageRef_assign. rewrite Hh.
  rewrite (Image_unref_returns a w i Hlive) by (unfold INT_MIN in *; lia).
  cbn [bind]. rewrite Hr.
  rewrite (Image_ref_returns a _ _ Hlive1)
    by (cbn [set_refCount refCount_]; unfold INT_MIN in *; lia).
  cbn [bind set_refCount refCount_].
  change (mkImage (data_ i) (size_ i) (deleter_ i) (refCount_ i - 1))
    with (set_refCount i (refCount_ i - 1)).
  rewrite write_refCount_twice.
  replace (refCount_ i - 1 + 1) with (refCount_ i) by lia.
  rewrite write_refCount_same by exact Hlive.
  destruct h as [p]. simpl in Hh. now subst p.
Qed.

Lemma copy_assign_within_one_image_witness :
  ImageRef_assign (mkImageRef (Some 1%nat)) (Other (mkImageRef (Some 1%nat)))
    two_image_world = Returns (mkImageRef (Some 1%nat), two_image_world) /\
  ImageRef_assign (mkImageRef (Some 1%nat)) Self two_image_world
  = Returns (mkImageRef (Some 1%nat), two_image_world).
Proof.
  apply (copy_assign_within_one_image (mkImageRef (Some 1%nat)) (mkImageRef (Some 1%nat))
           two_image_world 1%nat (mkImage [] (mkSize 0 0) PoolRemove 2));
    try reflexivity.
  split; apply Z.leb_le; reflexivity.
Defined.

(** ** What [data()] reads *)

Lemma int_mul_cases (a b : Z) :
  int_mul a b = Returns (a * b) \/ int_mul a b = Undefined.
Proof. unfold int_mul, int_result. destruct (in_int (a * b)); auto. Qed.

Lemma int_mul_returns (a b c : Z) : int_mul a b = Returns c -> c = a * b.
Proof. apply int_result_returns. Qed.

Lemma copy_range_within (v : list byte) (start n : Z) (r : list byte) :
  copy_range v start n = Returns r -> start + n <= Z.of_nat (length v).
Proof.
  unfold copy_range.
  destruct ((0 <=? start) && (start <? Z.of_nat (length v)) && (0 <=? n)
            && (start + n <=? Z.of_nat (length v))) eqn:E; [| discriminate].
  intros _. apply andb_true_iff in E as [_ E]. now apply Z.leb_le.
Qed.

Lemma copy_range_cases (v : list byte) (start n : Z) :
  (exists r, copy_range v start n = Returns r) \/ copy_range v start n = Undefined.
Proof. unfold copy_range. destruct (_ && _); eauto. Qed.

Lemma copy_rows_cases (full : list byte) (s : Size) (n : nat) :
  forall (y : Z) (acc : list byte),
    (exists r, copy_rows full s y n acc = Returns r)
    \/ copy_rows full s y n acc = Undefined.
Proof.
  induction n as [| n IH]; intros y acc; cbn [copy_rows]; [eauto |].
  destruct (int_mul_cases y (width s)) as [-> | ->]; cbn [bind]; [| auto].
  destruct (int_mul_cases (y * width s) 4) as [-> | ->]; cbn [bind]; [| auto].
  destruct (int_mul_cases (width s) 4) as [-> | ->]; cbn [bind]; [| auto].
  destruct (copy_range_cases full (y * width s * 4) (width s * 4)) as [[r ->] | ->];
    cbn [bind]; auto.
Qed.

(** When the loop returns, every row it read lay inside the parent buffer. *)
Lemma copy_rows_within (full : list byte) (s : Size) (n : nat) :
  forall (y : Z) (acc r : list byte),
    copy_rows full s y n acc = Returns r ->
    (0 < n)%nat -> 0 < width s -> 0 <= y ->
    (y + Z.of_nat n) * width s * 4 <= Z.of_nat (length full).
Proof.
  induction n as [| n IH]; intros y acc r H Hn Hw Hy; [lia |].
  cbn [copy_rows] in H.
  apply bind_returns in H as (yw & Hyw & H). apply int_mul_returns in Hyw. subst yw.
  apply bind_returns in H as (st & Hst & H). apply int_mul_returns in Hst. subst st.
  apply bind_returns in H as (ln & Hln & H). apply int_mul_returns in Hln. subst ln.
  apply bind_returns in H as (rw & Hrw & H). apply copy_range_within in Hrw.
  destruct n as [| n'].
  - simpl Z.of_nat. lia.
  - specialize (IH (y + 1) _ _ H ltac:(lia) Hw ltac:(lia)). lia.
Qed.

(** [data()] never looks at the parent's dimensions: when the parent buffer
    is shorter than [size.width * size.height * 4] bytes, it reads past its
    end, which is undefined. *)
Theorem data_reads_past_a_short_parent
  (f : ImageFragment) (w : World) (a : addr) (i : Image) :
  image_ (frag_image_ f) = Some a ->
  lookup a w = Some i ->
  0 < width (frag_size_ f) -> 0 < height (frag_size_ f) ->
  Z.of_nat (length (data_ i)) < width (frag_size_ f) * height (frag_size_ f) * 4 ->
  ImageFragment_data f w = Undefined.
Proof.
  intros Hptr Hlive Hw Hh Hshort.
  unfold ImageFragment_data, ImageRef_get. rewrite Hptr, Hlive. cbn [bind].
  destruct (int_mul_cases (width (frag_size_ f)) (height (frag_size_ f))) as [-> | ->];
    cbn [bind]; [| reflexivity].
  destruct (int_mul_cases (width (frag_size_ f) * height (frag_size_ f)) 4) as [-> | ->];
    cbn [bind]; [| reflexivity].
  unfold vector_size_arg.
  destruct (Z.ltb_spec (width (frag_size_ f) * height (frag_size_ f) * 4) 0); [nia |].
  cbn [bind].
  destruct (copy_rows_cases (data_ i) (frag_size_ f) (Z.to_nat (height (frag_size_ f))) 0 [])
    as [[r Hr] | ->]; [| reflexivity].
  apply copy_rows_within in Hr; lia.
Qed.

Lemma data_reads_past_a_short_parent_witness :
  ImageFragment_data (mkImageFragment (mkImageRef (Some 1%nat)) (mkCoordinate 0 0) (mkSize 2 2))
    (one_image_world 1%nat red_over_blue) = Undefined.
Proof.
  apply (data_reads_past_a_short_parent
           (mkImageFragment (mkImageRef (Some 1%nat)) (mkCoordinate 0 0) (mkSize 2 2))
           (one_image_world 1%nat red_over_blue) 1%nat red_over_blue);
    reflexivity.
Defined.

(** [data()] at sizes that are not positive: with height 0 the buffer is
    empty; with a negative area [reserve] is asked for a size beyond
    [max_size()] and throws [std::length_error]; with both dimensions
    negative the area is positive, the loop does not run, and the buffer is
    empty. *)
Theorem data_of_degenerate_sizes
  (f : ImageFragment) (w : World) (a : addr) (i : Image) :
  image_ (frag_image_ f) = Some a ->
  lookup a w = Some i ->
  (height (frag_size_ f) = 0 -> ImageFragment_data f w = Returns []) /\
  (INT_MIN <= width (frag_size_ f) * height (frag_size_ f) * 4 < 0 ->
     ImageFragment_data f w = Throws std_length_error) /\
  (width (frag_size_ f) < 0 -> height (frag_size_ f) < 0 ->
   width (frag_size_ f) * height (frag_size_ f) * 4 <= INT_MAX ->
     ImageFragment_data f w = Returns []).
Proof.
  intros Hptr Hlive.
  unfold ImageFragment_data, ImageRef_get. rewrite Hptr, Hlive. cbn [bind].
  assert (Hmin : INT_MIN <= 0 <= INT_MAX) by (unfold INT_MIN, INT_MAX; lia).
  split; [| split].
  - intros ->.
    rewrite (int_mul_ok (width (frag_size_ f)) 0) by (rewrite Z.mul_0_r; exact Hmin).
    cbn [bind]. rewrite Z.mul_0_r. reflexivity.
  - intros Hneg.
    rewrite int_mul_ok by (unfold INT_MAX in *; lia). cbn [bind].
    rewrite int_mul_ok by (unfold INT_MAX in *; lia). cbn [bind].
    unfold vector_size_arg.
    destruct (Z.ltb_spec (width (frag_size_ f) * height (frag_size_ f) * 4) 0);
      [reflexivity | lia].
  - intros Hw Hh Hmax.
    rewrite int_mul_ok by (unfold INT_MIN in *; nia). cbn [bind].
    rewrite int_mul_ok by (unfold INT_MIN in *; nia). cbn [bind].
    unfold vector_size_arg.
    destruct (Z.ltb_spec (width (frag_size_ f) * height (frag_size_ f) * 4) 0); [nia |].
    cbn [bind]. replace (Z.to_nat (height (frag_size_ f))) with O by lia. reflexivity.
Qed.

Lemma data_of_degenerate_sizes_witness :
  (height (frag_size_ (mkImageFragment (mkImageRef (Some 1%nat)) (mkCoordinate 0 0)
                         (mkSize 1 (-1)))) = 0 ->
   ImageFragment_data (mkImageFragment (mkImageRef (Some 1%nat)) (mkCoordinate 0 0)
                         (mkSize 1 (-1)))
     (one_image_world 1%nat red_over_blue) = Returns []) /\
  (INT_MIN <= width (frag_size_ (mkImageFragment (mkImageRef (Some 1%nat))
                                   (mkCoordinate 0 0) (mkSize 1 (-1))))
              * height (frag_size_ (mkImageFragment (mkImageRef (Some 1%nat))
                                      (mkCoordinate 0 0) (mkSize 1 (-1)))) * 4 < 0 ->
   ImageFragment_data (mkImageFragment (mkImageRef (Some 1%nat)) (mkCoordinate 0 0)
                         (mkSize 1 (-1)))
     (one_image_world 1%nat red_over_blue) = Throws std_length_error) /\
  (width (frag_size_ (mkImageFragment (mkImageRef (Some 1%nat)) (mkCoordinate 0 0)
                        (mkSize 1 (-1)))) < 0 ->
   height (frag_size_ (mkImageFragment (mkImageRef (Some 1%nat)) (mkCoordinate 0 0)
                         (mkSize 1 (-1)))) < 0 ->
   width (frag_size_ (mkImageFragment (mkImageRef (Some 1%nat)) (mkCoordinate 0 0)
                        (mkSize 1 (-1))))
   * height (frag_size_ (mkImageFragment (mkImageRef (Some 1%nat)) (mkCoordinate 0 0)
                           (mkSize 1 (-1)))) * 4 <= INT_MAX ->
   ImageFragment_data (mkImageFragment (mkImageRef (Some 1%nat)) (mkCoordinate 0 0)
                         (mkSize 1 (-1)))
     (one_image_world 1%nat red_over_blue) = Returns []).
Proof.
  apply (data_of_degenerate_sizes
           (mkImageFragment (mkImageRef (Some 1%nat)) (mkCoordinate 0 0) (mkSize 1 (-1)))
           (one_image_world 1%nat red_over_blue) 1%nat red_over_blue);
    reflexivity.
Defined.

(** Round trip through the pool: an image created from a buffer of
    [size.width * size.height * 4] bytes gives that buffer back as the
    [data()] of a fragment that has the size of the whole image, whatever
    the offset of the fragment. *)
Theorem whole_image_fragment_returns_the_buffer
  (d : list byte) (s : Size) (w w1 : World) (h : ImageRef) (off : Coordinate) :
  ImagePool_create d s w = Returns (h, w1) ->
  Z.of_nat (length d) = width s * height s * 4 ->
  0 < width s -> 0 <= height s ->
  Z.of_nat (length d) <= INT_MAX ->
  exists a f w2,
    image_ h = Some a /\
    ImageFragment_new a off s w1 = Returns (f, w2) /\
    refCount_at a w2 = Some 2 /\
    ImageFragment_data f w2 = Returns d.
Proof.
  intros Hc Hlen Hw Hh Hmax.
  apply create_facts in Hc as (a & -> & Ha & Hl1 & _ & _).
  assert (Hlive : lookup a w1 = Some (mkImage d s PoolRemove 1))
    by (unfold lookup; rewrite Hl1; now apply find_app_absent).
  assert (Hr : INT_MIN <= refCount_ (mkImage d s PoolRemove 1) + 1 <= INT_MAX)
    by (simpl; unfold INT_MIN, INT_MAX; lia).
  pose proof (lookup_write a w1 _ Hlive 2) as Hlive2.
  exists a, (mkImageFragment (mkImageRef (Some a)) off s),
    (write_refCount a (mkImage d s PoolRemove 1) 2 w1).
  split; [reflexivity |]. split; [| split].
  - unfold ImageFragment_new, ImageRef_new.
    rewrite (Image_ref_returns a w1 _ Hlive Hr). reflexivity.
  - unfold refCount_at. now rewrite Hlive2.
  - rewrite (ImageFragment_data_returns (mkImageFragment (mkImageRef (Some a)) off s)
               _ a _ eq_refl Hlive2);
      cbn [frag_size_ set_refCount data_]; try lia.
    rewrite <- Hlen, Nat2Z.id, firstn_all. reflexivity.
Qed.

Lemma whole_image_fragment_returns_the_buffer_witness :
  exists a f w2,
    image_ (mkImageRef (Some 1%nat)) = Some a /\
    ImageFragment_new a (mkCoordinate 3 5) (mkSize 1 2)
      (one_image_world 1%nat red_over_blue) = Returns (f, w2) /\
    refCount_at a w2 = Some 2 /\
    ImageFragment_data f w2 = Returns [xff; x00; x00; xff; x00; x00; xff; xff].
Proof.
  apply (whole_image_fragment_returns_the_buffer
           [xff; x00; x00; xff; x00; x00; xff; xff] (mkSize 1 2) empty_world);
    try reflexivity; apply Z.leb_le; reflexivity.
Defined.

(** ** The RGB overload outside its intended use *)

Lemma length_replace_nth (i : nat) (b : byte) (d : list byte) :
  length (replace_nth i b d) = length d.
Proof.
  revert i. induction d as [| x d IH]; intros [| i]; simpl; auto.
Qed.

Lemma vector_set_returns (d d' : list byte) (i : nat) (b : byte) :
  vector_set d i b = Returns d' -> (i < length d)%nat /\ length d' = length d.
Proof.
  unfold vector_set. destruct (Nat.ltb_spec i (length d)) as [Hlt | Hge]; [| discriminate].
  intros E. injection E as <-. split; [exact Hlt | apply length_replace_nth].
Qed.

Lemma vector_set_cases (d : list byte) (i : nat) (b : byte) :
  (exists d', vector_set d i b = Returns d') \/ vector_set d i b = Undefined.
Proof. unfold vector_set. destruct (Nat.ltb i (length d)); eauto. Qed.

Lemma write_colors_cases (cs : list RGBColor) :
  forall (i : nat) (d : list byte),
    (exists d', write_colors cs i d = Returns d') \/ write_colors cs i d = Undefined.
Proof.
  induction cs as [| c cs IH]; intros i d; cbn [write_colors]; [eauto |].
  destruct (vector_set_cases d i (red c)) as [[d1 ->] | ->]; cbn [bind]; [| auto].
  destruct (vector_set_cases d1 (i + 1) (green c)) as [[d2 ->] | ->]; cbn [bind]; [| auto].
  destruct (vector_set_cases d2 (i + 2) (blue c)) as [[d3 ->] | ->]; cbn [bind]; [| auto].
  destruct (vector_set_cases d3 (i + 3) xff) as [[d4 ->] | ->]; cbn [bind]; auto.
Qed.

(** When the loop returns, every byte it wrote lay inside the buffer. *)
Lemma write_colors_within (cs : list RGBColor) :
  forall (i : nat) (d d' : list byte),
    write_colors cs i d = Returns d' -> cs <> [] ->
    (i + 4 * length cs <= length d)%nat.
Proof.
  induction cs as [| c cs IH]; intros i d d' H Hne; [congruence |].
  cbn [write_colors] in H.
  apply bind_returns in H as (d1 & H1 & H). apply vector_set_returns in H1 as [_ L1].
  apply bind_returns in H as (d2 & H2 & H). apply vector_set_returns in H2 as [_ L2].
  apply bind_returns in H as (d3 & H3 & H). apply vector_set_returns in H3 as [_ L3].
  apply bind_returns in H as (d4 & H4 & H). apply vector_set_returns in H4 as [B4 L4].
  destruct cs as [| c' cs'].
  - simpl length. lia.
  - specialize (IH (i + 4)%nat d4 d' H ltac:(discriminate)).
    cbn [length] in *. lia.
Qed.

(** With more colours than [size.width * size.height] pixels, the call of
    the RGB overload is undefined: the byte count is not an [int], or else
    the loop writes past the end of the buffer it resized. *)
Theorem create_rgb_with_too_many_colours (cs : list RGBColor) (s : Size) (w : World) :
  0 <= width s * height s ->
  width s * height s < Z.of_nat (length cs) ->
  ImagePool_create_rgb cs s w = Undefined.
Proof.
  intros Hnn Hmany. unfold ImagePool_create_rgb.
  destruct (int_mul_cases (width s) (height s)) as [-> | ->]; cbn [bind]; [| reflexivity].
  destruct (int_mul_cases (width s * height s) 4) as [-> | ->]; cbn [bind]; [| reflexivity].
  unfold vector_size_arg.
  destruct (Z.ltb_spec (width s * height s * 4) 0); [lia |]. cbn [bind].
  destruct (write_colors_cases cs O (repeat x00 (Z.to_nat (width s * height s * 4))))
    as [[d' Hd] | ->]; [| reflexivity].
  apply write_colors_within in Hd.
  - rewrite repeat_length in Hd. lia.
  - destruct cs; [simpl in Hmany; lia | discriminate].
Qed.

Lemma create_rgb_with_too_many_colours_witness :
  ImagePool_create_rgb [mkRGB x01 x02 x03; mkRGB x04 x05 x06] (mkSize 1 1) empty_world
  = Undefined.
Proof.
  apply (create_rgb_with_too_many_colours [mkRGB x01 x02 x03; mkRGB x04 x05 x06]
           (mkSize 1 1) empty_world);
    [apply Z.leb_le | apply Z.ltb_lt]; reflexivity.
Defined.



(** ** The order on named images *)

Lemma ascii_compare_refl (c : Ascii.ascii) : Ascii.compare c c = Eq.
Proof. unfold Ascii.compare. apply N.compare_refl. Qed.

Lemma ascii_compare_lt_trans (x y z : Ascii.ascii) :
  Ascii.compare x y = Lt -> Ascii.compare y z = Lt -> Ascii.compare x z = Lt.
Proof.
  unfold Ascii.compare. rewrite !N.compare_lt_iff. apply N.lt_trans.
Qed.

Lemma string_compare_refl (x : String.string) : String.compare x x = Eq.
Proof.
  induction x as [| c x IH]; simpl; [reflexivity |]. now rewrite ascii_compare_refl.
Qed.

Lemma string_compare_lt_trans (x : String.string) :
  forall y z : String.string,
    String.compare x y = Lt -> String.compare y z = Lt -> String.compare x z = Lt.
Proof.
  induction x as [| a x IH]; intros [| b y] [| c z]; simpl; try discriminate; auto.
  destruct (Ascii.compare a b) eqn:Eab; try discriminate.
  - apply Ascii.compare_eq_iff in Eab. subst b.
    destruct (Ascii.compare a c); try discriminate; auto. apply IH.
  - intros _. destruct (Ascii.compare b c) eqn:Ebc; try discriminate.
    + apply Ascii.compare_eq_iff in Ebc. subst c. now rewrite Eab.
    + intros _. now rewrite (ascii_compare_lt_trans a b c Eab Ebc).
Qed.

Lemma string_lt_iff (x y : String.string) :
  string_lt x y = true <-> String.compare x y = Lt.
Proof.
  unfold string_lt, String.ltb. destruct (String.compare x y); split; congruence.
Qed.


Lemma NamedImage_lt_iff (x y : NamedImage) :
  NamedImage_lt x y = true <->
  (createdAt_ x < createdAt_ y)%N
  \/ (createdAt_ x = createdAt_ y /\ String.compare (name_ x) (name_ y) = Lt).
Proof.
  unfold NamedImage_lt.
  destruct (N.ltb_spec (createdAt_ x) (createdAt_ y)) as [Hlt | Hge].
  - split; auto.
  - destruct (N.eqb_spec (createdAt_ x) (createdAt_ y)) as [Heq | Hne].
    + rewrite string_lt_iff. split; [auto | intros [H | [_ H]]; [lia | exact H]].
    + split; [discriminate | intros [H | [H _]]; [lia | contradiction]].
Qed.

(** [operator<] on named images is a strict order: nothing is below itself,
    no two are below each other, and it is transitive. *)
Theorem NamedImage_lt_is_a_strict_order (x y z : NamedImage) :
  NamedImage_lt x x = false /\
  (NamedImage_lt x y = true -> NamedImage_lt y x = false) /\
  (NamedImage_lt x y = true -> NamedImage_lt y z = true -> NamedImage_lt x z = true).
Proof.
  assert (Hirr : forall u, NamedImage_lt u u = false).
  { intros u. destruct (NamedImage_lt u u) eqn:E; [| reflexivity].
    apply NamedImage_lt_iff in E as [H | [_ H]]; [lia |].
    rewrite string_compare_refl in H. discriminate. }
  assert (Htr : forall u v t, NamedImage_lt u v = true -> NamedImage_lt v t = true ->
                              NamedImage_lt u t = true).
  { intros u v t Huv Hvt. apply NamedImage_lt_iff in Huv, Hvt. apply NamedImage_lt_iff.
    destruct Huv as [Huv | [Euv Suv]], Hvt as [Hvt | [Evt Svt]].
    - left; lia.
    - left; lia.
    - left; lia.
    - right. split; [congruence |]. eapply string_compare_lt_trans; eauto. }
  split; [apply Hirr |]. split; [| apply Htr].
  intros Hxy. destruct (NamedImage_lt y x) eqn:E; [| reflexivity].
  rewrite <- (Hirr x). symmetry. exact (Htr x y x Hxy E).
Qed.


(** ** The renderer over sequences of calls *)

(** A renderer, from its construction on and whatever is called on it,
    holds an empty pool and an empty atlas, and its cell size is the one
    given last, to the constructor or to [setCellSize]; [renderImage]
    changes nothing. *)
Theorem renderer_state_after_calls (cs : Size) (calls : list renderer_call) :
  fold_left renderer_step calls (ImageRenderer_new cs)
  = mkImageRenderer (mkImagePool [] []) (last_cell_size cs calls) (mkTextureAtlas []).
Proof.
  unfold ImageRenderer_new. revert cs.
  induction calls as [| c calls IH]; intros cs; [reflexivity |].
  destruct c as [s | i off ext |]; simpl; apply IH.
Qed.

(** ** The cells of a rasterized image *)

Lemma RasterizedImage_fragment_returns_inv
  (r : RasterizedImage) (pos : Coordinate) (w w' : World) (f : ImageFragment) :
  RasterizedImage_fragment r pos w = Returns (f, w') ->
  exists a i,
    image_ (image r) = Some a /\ lookup a w = Some i /\
    frag_image_ f = mkImageRef (Some a) /\ frag_size_ f = cellSpan r /\
    w' = write_refCount a i (refCount_ i + 1) w.
Proof.
  unfold RasterizedImage_fragment, ImageRef_get. intros H.
  destruct (image_ (image r)) as [a |]; [| discriminate].
  destruct (lookup a w) as [i |] eqn:Hlive; [| discriminate]. cbn [bind] in H.
  apply bind_returns in H as (u & _ & H). apply bind_returns in H as (pr & _ & H).
  apply bind_returns in H as (pc & _ & H).
  unfold ImageFragment_new, ImageRef_new, Image_ref in H. rewrite Hlive in H.
  apply bind_returns in H as ([h0 w1] & H & E). injection E as <- <-.
  apply bind_returns in H as (w2 & H & E). injection E as <- <-.
  apply bind_returns in H as (c & Hc & E). injection E as <-.
  apply int_result_returns in Hc. subst c.
  exists a, i. repeat split; auto.
Qed.

(** The fragments [fragment()] returns for two positions of one rasterized
    image have the same [data()]: the offset, the only thing in which they
    differ, is not read, so every cell gets the same bytes. *)
Theorem fragments_of_all_cells_share_their_data
  (r : RasterizedImage) (p1 p2 : Coordinate) (w w1 w2 : World) (f1 f2 : ImageFragment) :
  RasterizedImage_fragment r p1 w = Returns (f1, w1) ->
  RasterizedImage_fragment r p2 w = Returns (f2, w2) ->
  w1 = w2 /\ ImageFragment_data f1 w1 = ImageFragment_data f2 w2.
Proof.
  intros H1 H2.
  apply RasterizedImage_fragment_returns_inv in H1 as (a & i & Ha & Hi & Hf1 & Hs1 & ->).
  apply RasterizedImage_fragment_returns_inv in H2 as (a' & i' & Ha' & Hi' & Hf2 & Hs2 & ->).
  assert (a' = a) by congruence. subst a'.
  assert (i' = i) by congruence. subst i'.
  split; [reflexivity |].
  unfold ImageFragment_data. now rewrite Hf1, Hf2, Hs1, Hs2.
Qed.

Lemma fragments_of_all_cells_share_their_data_witness :
  one_image_world 1%nat (set_refCount red_over_blue 2)
  = one_image_world 1%nat (set_refCount red_over_blue 2) /\
  ImageFragment_data
    (mkImageFragment (mkImageRef (Some 1%nat)) (mkCoordinate 0 0) (mkSize 1 1))
    (one_image_world 1%nat (set_refCount red_over_blue 2))
  = ImageFragment_data
      (mkImageFragment (mkImageRef (Some 1%nat)) (mkCoordinate 1 0) (mkSize 1 1))
      (one_image_world 1%nat (set_refCount red_over_blue 2)).
Proof.
  apply (fragments_of_all_cells_share_their_data (rasterized 1%nat (mkSize 1 1))
           (mkCoordinate 0 0) (mkCoordinate 1 0) (one_image_world 1%nat red_over_blue));
    reflexivity.
Defined.
